(** * Storage layer for software images (images/storage_images.go)

    A shallow embedding of [SoftwareImagesStorage] and of the part of its
    environment the engine talks to: the Go heap holding the caller's
    [*SoftwareImage] values, the wall clock read by [time.Now], and the
    MongoDB collections reached through an [mgo] session.  Every engine
    operation is a computation in a small state-and-panic monad over that
    environment, transcribed statement by statement from the Go source. *)

From Stdlib Require Import ZArith String List Bool Lia.
From stdpp Require Import gmap strings list fin_maps.

Local Open Scope string_scope.
Local Open Scope Z_scope.
Local Open Scope list_scope.

(** ** Go values *)

(** A non-nil Go [error]: values made by [errors.New] are pointers, so two
    errors are the same value when they are the same allocation ([err_addr]),
    whatever their text.  [Error] is the [Error()] method.  The Go interface
    value [error] itself, which may be nil, is [option error]. *)
Record error := mkError { err_addr : positive; Error : string }.

Global Instance error_eq_dec : EqDecision error.
Proof. solve_decision. Defined.

(** [time.Time], as the count of nanoseconds since the epoch. *)
Definition Time := Z.

(** A pointer into the heap of images; [None] is Go's [nil]. *)
Definition loc := nat.
Definition ptr := option loc.

(** ** Constants of storage_images.go *)

Definition StorageKeySoftwareImageModel : string := "softwareimageconstructor.model".
Definition StorageKeySoftwareImageName : string := "softwareimageconstructor.name".
Definition StorageKeySoftwareImageId : string := "_id".

Definition IndexUniqeNameVersionStr : string := "uniqueNameVersionIndex".

Definition DatabaseName : string := "deployment_service".
Definition CollectionImages : string := "images".

Definition ErrStorageInvalidID : error := mkError 1 "Invalid id".
Definition ErrStorageInvalidVersion : error := mkError 2 "Invalid version".
Definition ErrStorageInvalidModel : error := mkError 3 "Invalid model".
Definition ErrStorageInvalidImage : error := mkError 4 "Invalid image".

(** ** Collaborators outside the repository *)

Module govalidator.
(** [func IsNull(str string) bool { return len(str) == 0 }] *)
Definition IsNull (str : string) : bool := (String.length str =? 0)%nat.
End govalidator.

(** ** The entity *)

(** Modelled from the spec: the struct [SoftwareImage] and its methods
    [Validate] and [SetModified] are declared in a file of package [images]
    that is not among the sources.  The fields are the ones the storage code
    and the spec name: the identifier behind the pointer [image.Id] (document
    key [_id]), the natural key (name and model of the embedded
    [softwareimageconstructor]) and the modification timestamp. *)
Record SoftwareImage := mkSoftwareImage {
  Id : option string;
  Name : option string;
  Model : option string;
  Modified : option Time
}.

Global Instance SoftwareImage_eq_dec : EqDecision SoftwareImage.
Proof. solve_decision. Defined.

(** Modelled from the spec: the "distinct error from the Entity Model" that
    a failed validation is surfaced as. *)
Definition ErrValidation : error := mkError 5 "Validation failed".

(** Modelled from the spec: a natural-key field is empty when its pointer is
    nil or its string is null. *)
Definition blank_field (f : option string) : bool :=
  match f with
  | None => true
  | Some s => govalidator.IsNull s
  end.

(** Modelled from the spec: [Validate] "must fail when the natural-key fields
    are empty"; it reads the receiver only. *)
Definition validate (s : SoftwareImage) : option error :=
  if blank_field (Name s) || blank_field (Model s) then Some ErrValidation else None.

(** Modelled from the spec: [SetModified] is the "mutator to set the
    modification timestamp". *)
Definition set_modified (t : Time) (s : SoftwareImage) : SoftwareImage :=
  {| Id := Id s; Name := Name s; Model := Model s; Modified := Some t |}.

(** ** What BSON keeps of a value *)

Module bson.

(** A BSON datetime counts whole milliseconds: the encoder writes
    [t.Unix()*1000 + t.Nanosecond()/1e6], that is the time rounded down to
    the millisecond, and the decoder gives that instant back. *)
Definition millisecond : Z := 1000000.

Definition datetime (t : Time) : Time := (t / millisecond) * millisecond.

(** The image a document decodes to after the image [d] was written: the
    strings as they are, the modification time as a datetime. *)
Definition written (d : SoftwareImage) : SoftwareImage :=
  {| Id := Id d; Name := Name d; Model := Model d;
     Modified := option_map datetime (Modified d) |}.

End bson.

(** ** The mgo driver and the database behind it *)

Module mgo.

Definition ErrNotFound : error := mkError 6 "not found".

(** An error of the server's own: a write that breaks a unique key. *)
Definition ErrDuplicateKey : error := mkError 7 "E11000 duplicate key error".
(** An index of the same name or keys exists with other options. *)
Definition ErrIndexConflict : error := mkError 8 "index already exists with different options".

(** [mgo.Index], the fields the engine can set apart from their zero value. *)
Record Index := mkIndex {
  Key : list string;
  Unique : bool;
  DropDups : bool;
  Background : bool;
  Sparse : bool;
  IndexName : string
}.

Global Instance Index_eq_dec : EqDecision Index.
Proof. solve_decision. Defined.

(** A [bson.M] selector: field name to required value; the empty selector
    (Go's [nil]) selects every document. *)
Definition query := list (string * string).

(** A collection: its documents, each as the image it decodes to, in
    natural order, and its indexes. *)
Record collection := mkCollection {
  docs : list SoftwareImage;
  indexes : list Index
}.

(** What names an index in the driver's cache of ensured indexes: the full
    name of the collection and the key fields. *)
Definition cache_key : Type := string * string * list string.

Definition empty_collection : collection := mkCollection [] [].

(** The value a stored document has under a (dotted) field name. *)
Definition doc_field (k : string) (d : SoftwareImage) : option string :=
  if String.eqb k StorageKeySoftwareImageId then Id d
  else if String.eqb k StorageKeySoftwareImageName then Name d
  else if String.eqb k StorageKeySoftwareImageModel then Model d
  else None.

Definition has_id (id : string) (d : SoftwareImage) : bool :=
  bool_decide (doc_field StorageKeySoftwareImageId d = Some id).

Definition matches (q : query) (d : SoftwareImage) : bool :=
  forallb (fun kv => bool_decide (doc_field (fst kv) d = Some (snd kv))) q.

(** The tuple of values an index orders a document by. *)
Definition index_key (ix : Index) (d : SoftwareImage) : list (option string) :=
  map (fun k => doc_field k d) (Key ix).

(** Would [d] clash with one of [others] under a unique index of [ixs]? *)
Definition violates_unique (ixs : list Index) (others : list SoftwareImage)
    (d : SoftwareImage) : bool :=
  existsb (fun ix => Unique ix &&
    existsb (fun o => bool_decide (index_key ix o = index_key ix d)) others) ixs.

(** Do the documents have pairwise different keys under [ix]? *)
Fixpoint unique_keys (ix : Index) (ds : list SoftwareImage) : bool :=
  match ds with
  | [] => true
  | d :: rest =>
      negb (existsb (fun o => bool_decide (index_key ix o = index_key ix d)) rest)
      && unique_keys ix rest
  end.

(** The position of the first document that satisfies [p]. *)
Fixpoint find_index (p : SoftwareImage -> bool) (ds : list SoftwareImage) : option nat :=
  match ds with
  | [] => None
  | d :: rest => if p d then Some O else option_map S (find_index p rest)
  end.

End mgo.

(** ** Operations of a collection *)

Module Collection.
Import mgo.

(** The reply of the server to one command: the value read, an error or
    nil, and the collection afterwards. *)
Definition reply (A : Type) : Type := A * option error * collection.

(** [Insert]: the primary key [_id] is unique, and so is every key under a
    unique index; the document, as BSON keeps it, goes to the end of the
    collection. *)
Definition insert (d : SoftwareImage) (c : collection) : reply unit :=
  if existsb (fun o => bool_decide (Id o = Id d)) (docs c) then (tt, Some ErrDuplicateKey, c)
  else if violates_unique (indexes c) (docs c) d then (tt, Some ErrDuplicateKey, c)
  else (tt, None, mkCollection (docs c ++ [bson.written d]) (indexes c)).

(** [Find(q).One]: the first match in natural order, [ErrNotFound] if none. *)
Definition find_one (p : SoftwareImage -> bool) (c : collection)
    : reply (option SoftwareImage) :=
  match List.find p (docs c) with
  | Some d => (Some d, None, c)
  | None => (None, Some ErrNotFound, c)
  end.

(** [Find(q).All]: every match, in natural order; never an error of its own. *)
Definition find_all (p : SoftwareImage -> bool) (c : collection)
    : reply (list SoftwareImage) :=
  (List.filter p (docs c), None, c).

(** [UpdateId]: replaces the document with that [_id] by [d] as BSON keeps
    it; [ErrNotFound] if there is none. *)
Definition update_id (id : string) (d : SoftwareImage) (c : collection) : reply unit :=
  match find_index (has_id id) (docs c) with
  | None => (tt, Some ErrNotFound, c)
  | Some i =>
      if violates_unique (indexes c) (delete i (docs c)) d then (tt, Some ErrDuplicateKey, c)
      else (tt, None, mkCollection (<[i := bson.written d]> (docs c)) (indexes c))
  end.

(** [RemoveId]: removes the document with that [_id]; [ErrNotFound] if
    there is none. *)
Definition remove_id (id : string) (c : collection) : reply unit :=
  match find_index (has_id id) (docs c) with
  | None => (tt, Some ErrNotFound, c)
  | Some i => (tt, None, mkCollection (delete i (docs c)) (indexes c))
  end.

(** [EnsureIndex]: nothing to do when the very same index exists; a clash
    with an index of that name or those keys is an error, and so is a
    unique index the stored documents do not satisfy. *)
Definition ensure_index (ix : Index) (c : collection) : reply unit :=
  if bool_decide (ix ∈ indexes c) then (tt, None, c)
  else if existsb (fun o => String.eqb (IndexName o) (IndexName ix)
                            || bool_decide (Key o = Key ix)) (indexes c)
       then (tt, Some ErrIndexConflict, c)
  else if Unique ix && negb (unique_keys ix (docs c)) then (tt, Some ErrDuplicateKey, c)
  else (tt, None, mkCollection (docs c) (indexes c ++ [ix])).

End Collection.

(** ** The environment of the engine *)

(** The commands the engine sends through a session. *)
Inductive dbop :=
| OpEnsureIndex (ix : mgo.Index)
| OpFindIdOne (id : string)
| OpFindOne (q : mgo.query)
| OpFindAll (q : mgo.query)
| OpInsert (d : SoftwareImage)
| OpUpdateId (id : string) (d : SoftwareImage)
| OpRemoveId (id : string).

(** What the engine does to its environment, in order. *)
Inductive event :=
| EvValidate (l : loc)
| EvCopy
| EvClose
| EvDB (db coll : string) (op : dbop).

Definition is_db_call (e : event) : bool :=
  match e with EvDB _ _ _ => true | _ => false end.

(** The server: its collections by database and collection name, and the
    infrastructure failures ahead, one entry per command to come
    ([Some e]: that command fails with [e] and has no effect). *)
Record server := mkServer {
  colls : gmap (string * string) mgo.collection;
  faults : list (option error)
}.

(** How a Go call ends: it returns, or it panics. *)
Inductive result (A : Type) :=
| Ret (a : A)
| Panic (msg : string).
Arguments Ret {A} a.
Arguments Panic {A} msg.

(** The world of the engine: the caller's images, the server, the clock,
    the events so far, and two things of the process the engine runs in:
    - [index_cache]: the indexes the driver has ensured ([EnsureIndex]
      remembers them for the cluster and does not ask again);
    - [validate_nil]: what [Validate] does when its receiver is nil.  The
      method is not among the sources and the spec does not say, so the
      world carries the answer and every property holds whatever it is. *)
Record world := mkWorld {
  heap : list SoftwareImage;
  mongo : server;
  clock : Time;
  elapse : N;
  trace : list event;
  index_cache : list mgo.cache_key;
  validate_nil : result (option error)
}.

(** The collection [db.coll]; MongoDB creates collections on first use. *)
Definition coll_at (db coll : string) (s : server) : mgo.collection :=
  default mgo.empty_collection (colls s !! (db, coll)).

(** The collection every operation of the engine works on. *)
Definition images (w : world) : mgo.collection :=
  coll_at DatabaseName CollectionImages (mongo w).

Definition stored (w : world) : list SoftwareImage := mgo.docs (images w).

(** The commands sent so far. *)
Definition db_calls (w : world) : list event := List.filter is_db_call (trace w).

(** ** The monad of Go computations: state, and a panic that unwinds *)

Definition go (A : Type) : Type := world -> result A * world.

Global Instance go_ret : MRet go := fun A a w => (Ret a, w).
Global Instance go_bind : MBind go := fun A B f m w =>
  match m w with
  | (Ret a, w') => f a w'
  | (Panic msg, w') => (Panic msg, w')
  end.

Definition panic {A} (msg : string) : go A := fun w => (Panic msg, w).

Definition nil_deref : string :=
  "runtime error: invalid memory address or nil pointer dereference".

(** Updates of one component of the world. *)
Definition log (e : event) (w : world) : world :=
  mkWorld (heap w) (mongo w) (clock w) (elapse w) (trace w ++ [e])
          (index_cache w) (validate_nil w).
Definition set_heap (h : list SoftwareImage) (w : world) : world :=
  mkWorld h (mongo w) (clock w) (elapse w) (trace w) (index_cache w) (validate_nil w).
Definition set_mongo (s : server) (w : world) : world :=
  mkWorld (heap w) s (clock w) (elapse w) (trace w) (index_cache w) (validate_nil w).
Definition set_clock (t : Time) (w : world) : world :=
  mkWorld (heap w) (mongo w) t (elapse w) (trace w) (index_cache w) (validate_nil w).
Definition set_index_cache (ks : list mgo.cache_key) (w : world) : world :=
  mkWorld (heap w) (mongo w) (clock w) (elapse w) (trace w) ks (validate_nil w).

Definition emit (e : event) : go unit := fun w => (Ret tt, log e w).

(** [*p] for a pointer to an image. *)
Definition load (p : ptr) : go SoftwareImage := fun w =>
  match p with
  | None => (Panic nil_deref, w)
  | Some l => match heap w !! l with
              | Some s => (Ret s, w)
              | None => (Panic nil_deref, w)
              end
  end.

(** [*p = s]. *)
Definition store (p : ptr) (s : SoftwareImage) : go unit := fun w =>
  match p with
  | None => (Panic nil_deref, w)
  | Some l => match heap w !! l with
              | Some _ => (Ret tt, set_heap (<[l := s]> (heap w)) w)
              | None => (Panic nil_deref, w)
              end
  end.

(** A new image on the heap. *)
Definition alloc (s : SoftwareImage) : go ptr := fun w =>
  (Ret (Some (length (heap w))), set_heap (heap w ++ [s]) w).

(** [time.Now()]: the clock never runs backwards; [elapse] units pass
    before each reading. *)
Definition time_Now : go Time := fun w =>
  let t := clock w + Z.of_N (elapse w) in (Ret t, set_clock t w).

(** Modelled from the spec: [image.Validate()], the method that is not
    among the sources.  On an image it is the entity's [validate]; on a nil
    receiver the call itself is still made (Go calls a pointer method on a
    nil pointer) and what the method then does is the world's
    [validate_nil]. *)
Definition Validate (image : ptr) : go (option error) :=
  match image with
  | Some l => s ← load image; emit (EvValidate l);; mret (validate s)
  | None => fun w => (validate_nil w, w)
  end.

(** Modelled from the spec: [image.SetModified(t)], the "mutator to set the
    modification timestamp", writes the field of the struct behind the
    pointer; behind a nil pointer there is no struct to write, and the
    write panics (where it did not, [Update] would panic two statements
    later, at [*image.Id] of the same nil pointer). *)
Definition SetModified (image : ptr) (t : Time) : go unit :=
  s ← load image;
  store image (set_modified t s).

(** [session := i.session.Copy(); defer session.Close()] around a body: the
    deferred [Close] runs on every way out, a panic included. *)
Definition with_session {A} (body : go A) : go A := fun w =>
  match body (log EvCopy w) with
  | (r, w') => (r, log EvClose w')
  end.

(** The server's side of one command: the infrastructure failure that is
    due, or the command run on the collection. *)
Definition serve {A} (db coll : string) (zero : A)
    (run : mgo.collection -> Collection.reply A) (s : server) : A * option error * server :=
  match faults s with
  | Some e :: rest => (zero, Some e, mkServer (colls s) rest)
  | _ =>
      match run (coll_at db coll s) with
      | (a, err, c') => (a, err, mkServer (<[(db, coll) := c']> (colls s)) (tl (faults s)))
      end
  end.

(** One command on [session.DB(db).C(coll)]. *)
Definition command {A} (db coll : string) (op : dbop) (zero : A)
    (run : mgo.collection -> Collection.reply A) : go (A * option error) := fun w =>
  let w1 := log (EvDB db coll op) w in
  match serve db coll zero run (mongo w1) with
  | (a, err, s') => (Ret (a, err), set_mongo s' w1)
  end.

(** ** The calls of the mgo API the engine makes *)

Module Session.
Import mgo.

(** [cluster.HasCachedIndex(cacheKey)] and [cluster.CacheIndex(cacheKey, true)] *)
Definition HasCachedIndex (k : cache_key) : go bool := fun w =>
  (Ret (bool_decide (k ∈ index_cache w)), w).

Definition CacheIndex (k : cache_key) : go unit := fun w =>
  (Ret tt, set_index_cache (k :: index_cache w) w).

(** [session.DB(db).C(coll).EnsureIndex(ix)]: an index the driver has
    ensured before is not asked for again, the call returns nil at once;
    otherwise the command is sent, and the index is remembered when the
    command succeeds. *)
Definition EnsureIndex (db coll : string) (ix : Index) : go (option error) :=
  cached ← HasCachedIndex (db, coll, Key ix);
  if (cached : bool) then (mret None : go (option error))
  else
    r ← command db coll (OpEnsureIndex ix) tt (Collection.ensure_index ix);
    match snd r with
    | Some e => mret (Some e)
    | None => CacheIndex (db, coll, Key ix);; mret None
    end.

(** [One(&image)] into a [*SoftwareImage] variable that is nil: a document
    that was read is decoded into a new struct the variable then points to. *)
Definition decode_new (found : option SoftwareImage) : go ptr :=
  match found with
  | Some d => alloc d
  | None => mret None
  end.

(** [session.DB(db).C(coll).FindId(id).One(&image)], [image] a nil
    [*SoftwareImage] *)
Definition FindId_One (db coll : string) (id : string) : go (ptr * option error) :=
  r ← command db coll (OpFindIdOne id) None (Collection.find_one (has_id id));
  image ← decode_new (fst r);
  mret (image, snd r).

(** [session.DB(db).C(coll).Find(query).One(&image)], [image] a
    [SoftwareImage] variable at [dst] *)
Definition Find_One (db coll : string) (q : query) (dst : ptr) : go (option error) :=
  r ← command db coll (OpFindOne q) None (Collection.find_one (matches q));
  match fst r with
  | Some d => store dst d;; mret (snd r)
  | None => mret (snd r)
  end.

Fixpoint decode_all (ds : list SoftwareImage) : go (list ptr) :=
  match ds with
  | [] => mret []
  | d :: rest => p ← alloc d; ps ← decode_all rest; mret (p :: ps)
  end.

(** [session.DB(db).C(coll).Find(nil).All(&images)] *)
Definition Find_All (db coll : string) (q : query) : go (list ptr * option error) :=
  r ← command db coll (OpFindAll q) [] (Collection.find_all (matches q));
  images ← decode_all (fst r);
  mret (images, snd r).

(** [session.DB(db).C(coll).Insert(image)]: the struct behind the pointer
    is what is written. *)
Definition Insert (db coll : string) (image : ptr) : go (option error) :=
  d ← load image;
  r ← command db coll (OpInsert d) tt (Collection.insert d);
  mret (snd r).

(** [session.DB(db).C(coll).UpdateId(id, image)] *)
Definition UpdateId (db coll : string) (id : string) (image : ptr) : go (option error) :=
  d ← load image;
  r ← command db coll (OpUpdateId id d) tt (Collection.update_id id d);
  mret (snd r).

(** [session.DB(db).C(coll).RemoveId(id)] *)
Definition RemoveId (db coll : string) (id : string) : go (option error) :=
  r ← command db coll (OpRemoveId id) tt (Collection.remove_id id);
  mret (snd r).

End Session.

(** ** SoftwareImagesStorage *)

(** [err != nil && err.Error() == mgo.ErrNotFound.Error()] *)
Definition is_not_found (err : option error) : bool :=
  match err with
  | Some e => String.eqb (Error e) (Error mgo.ErrNotFound)
  | None => false
  end.

(** The zero value of the struct. *)
Definition zero_image : SoftwareImage := mkSoftwareImage None None None None.

(** [*image.Id] *)
Definition deref_Id (image : ptr) : go string :=
  s ← load image;
  match Id s with
  | Some id => mret id
  | None => panic nil_deref
  end.

(** The index [IndexStorage] asks for. *)
Definition uniqueNameVersionIndex : mgo.Index :=
  {| mgo.Key := [StorageKeySoftwareImageName; StorageKeySoftwareImageModel];
     mgo.Unique := true;
     mgo.DropDups := false;
     mgo.Background := false;
     mgo.Sparse := false;
     mgo.IndexName := IndexUniqeNameVersionStr |}.

Definition IndexStorage : go (option error) :=
  with_session (
    err ← Session.EnsureIndex DatabaseName CollectionImages uniqueNameVersionIndex;
    match err with
    | Some e => mret (Some e)
    | None => mret None
    end).

Definition Exists (id : string) : go (bool * option error) :=
  if negb (govalidator.IsNull id) then mret (false, Some ErrStorageInvalidID)
  else with_session (
    r ← Session.FindId_One DatabaseName CollectionImages id;
    let err := snd r in
    if is_not_found err then mret (false, None)
    else match err with
         | Some e => mret (false, Some e)
         | None => mret (true, None)
         end).

Definition Update (image : ptr) : go (bool * option error) :=
  verr ← Validate image;
  match verr with
  | Some e => mret (false, Some e)
  | None =>
      with_session (
        now ← time_Now;
        SetModified image now;;
        id ← deref_Id image;
        err ← Session.UpdateId DatabaseName CollectionImages id image;
        if is_not_found err then mret (false, None)
        else match err with
             | Some e => mret (false, Some e)
             | None => mret (true, None)
             end)
  end.

Definition FindImageByApplicationAndModel (version model : string)
    : go (ptr * option error) :=
  if negb (govalidator.IsNull version) then mret (None, Some ErrStorageInvalidVersion)
  else if negb (govalidator.IsNull model) then mret (None, Some ErrStorageInvalidModel)
  else
    let query := [(StorageKeySoftwareImageModel, model);
                  (StorageKeySoftwareImageName, version)] in
    with_session (
      image ← alloc zero_image;
      err ← Session.Find_One DatabaseName CollectionImages query image;
      if is_not_found err then mret (None, None)
      else match err with
           | Some e => mret (None, Some e)
           | None => mret (image, None)
           end).

Definition Insert (image : ptr) : go (option error) :=
  match image with
  | None => mret (Some ErrStorageInvalidImage)
  | Some _ =>
      verr ← Validate image;
      match verr with
      | Some e => mret (Some e)
      | None =>
          with_session (
            err ← Session.Insert DatabaseName CollectionImages image;
            match err with
            | Some e => mret (Some e)
            | None => mret None
            end)
      end
  end.

Definition FindByID (id : string) : go (ptr * option error) :=
  if negb (govalidator.IsNull id) then mret (None, Some ErrStorageInvalidID)
  else with_session (
    r ← Session.FindId_One DatabaseName CollectionImages id;
    let err := snd r in
    if is_not_found err then mret (None, None)
    else match err with
         | Some e => mret (None, Some e)
         | None => mret (fst r, None)
         end).

Definition Delete (id : string) : go (option error) :=
  if negb (govalidator.IsNull id) then mret (Some ErrStorageInvalidID)
  else with_session (
    err ← Session.RemoveId DatabaseName CollectionImages id;
    if is_not_found err then mret None
    else match err with
         | Some e => mret (Some e)
         | None => mret None
         end).

Definition FindAll : go (list ptr * option error) :=
  with_session (
    r ← Session.Find_All DatabaseName CollectionImages [];
    let err := snd r in
    if is_not_found err then mret (fst r, None)
    else match err with
         | Some e => mret ([], Some e)
         | None => mret (fst r, None)
         end).

(** ** Worlds to run the engine in *)

Definition server_of (ds : list SoftwareImage) (ixs : list mgo.Index)
    (fs : list (option error)) : server :=
  mkServer {[ (DatabaseName, CollectionImages) := mgo.mkCollection ds ixs ]} fs.

Definition world_of (h : list SoftwareImage) (ds : list SoftwareImage)
    (ixs : list mgo.Index) (fs : list (option error)) : world :=
  mkWorld h (server_of ds ixs fs) 1000 5 [] [] (Panic nil_deref).

(** The same at the clock reading [t], no time passing before the next. *)
Definition world_at (t : Time) (h : list SoftwareImage) (ds : list SoftwareImage)
    (ixs : list mgo.Index) (fs : list (option error)) : world :=
  mkWorld h (server_of ds ixs fs) t 0 [] [] (Panic nil_deref).

Definition img (id name model : string) : SoftwareImage :=
  mkSoftwareImage (Some id) (Some name) (Some model) None.


(** ** Notions the properties are stated with *)

(** Has the driver ensured the engine's index already? *)
Definition index_cached (w : world) : bool :=
  bool_decide ((DatabaseName, CollectionImages, mgo.Key uniqueNameVersionIndex)
               ∈ index_cache w).

(** What the driver remembers is there: if the engine's index is in the
    cache, it is an index of the collection. *)
Definition cache_sound (w : world) : Prop :=
  index_cached w = true -> uniqueNameVersionIndex ∈ mgo.indexes (images w).

(** No infrastructure failure is due for the next command. *)
Definition no_fault_due (s : server) : Prop :=
  match faults s with
  | Some _ :: _ => False
  | _ => True
  end.

(** The image behind a pointer, if any. *)
Definition deref (h : list SoftwareImage) (p : ptr) : option SoftwareImage :=
  match p with
  | Some l => h !! l
  | None => None
  end.

(** What a caller of [FindAll] gets to see: the images behind the pointers
    of the returned slice, and the error. *)
Definition FindAll_images (w : world) : result (list (option SoftwareImage) * option error) :=
  match FindAll w with
  | (Ret (ps, err), w') => Ret (map (deref (heap w')) ps, err)
  | (Panic msg, _) => Panic msg
  end.

(** The same, read off the server. *)
Definition listing (s : server) : list (option SoftwareImage) * option error :=
  match faults s with
  | Some e :: _ => ([], if String.eqb (Error e) (Error mgo.ErrNotFound) then None else Some e)
  | _ => (map Some (mgo.docs (coll_at DatabaseName CollectionImages s)), None)
  end.

(** How the engine reads the error of a lookup or update: the boolean and
    error of [Exists] and [Update]. *)
Definition found_or_error (err : option error) : bool * option error :=
  if is_not_found err then (false, None)
  else match err with
       | Some e => (false, Some e)
       | None => (true, None)
       end.

(** The world an accepted [Update] of the image [s] at [l] leaves, up to the
    server's part [srv]: validated, session opened, clock read, image
    stamped, command sent, session closed. *)
Definition stamped (w : world) : Time := clock w + Z.of_N (elapse w).

Definition after_update (w : world) (l : loc) (s : SoftwareImage) (id : string)
    (srv : server) : world :=
  log EvClose
    (set_mongo srv
       (log (EvDB DatabaseName CollectionImages
               (OpUpdateId id (set_modified (stamped w) s)))
          (set_heap (<[l := set_modified (stamped w) s]> (heap w))
             (set_clock (stamped w) (log EvCopy (log (EvValidate l) w)))))).


(** ** The engine as a state machine *)

(** One call of a method of [SoftwareImagesStorage]. *)
Inductive call :=
| CallIndexStorage
| CallExists (id : string)
| CallUpdate (image : ptr)
| CallFindImageByApplicationAndModel (version model : string)
| CallInsert (image : ptr)
| CallFindByID (id : string)
| CallDelete (id : string)
| CallFindAll.

(** The world a call leaves, whatever it returns. *)
Definition exec (c : call) (w : world) : world :=
  match c with
  | CallIndexStorage => snd (IndexStorage w)
  | CallExists id => snd (Exists id w)
  | CallUpdate image => snd (Update image w)
  | CallFindImageByApplicationAndModel version model =>
      snd (FindImageByApplicationAndModel version model w)
  | CallInsert image => snd (Insert image w)
  | CallFindByID id => snd (FindByID id w)
  | CallDelete id => snd (Delete id w)
  | CallFindAll => snd (FindAll w)
  end.

(** What happens to the world over time: the engine is called, the
    caller's own code rewrites its images, the failures ahead change. *)
Inductive action :=
| Engine (c : call)
| Caller (h : list SoftwareImage)
| Network (fs : list (option error)).

Definition act (a : action) (w : world) : world :=
  match a with
  | Engine c => exec c w
  | Caller h => set_heap h w
  | Network fs => set_mongo (mkServer (colls (mongo w)) fs) w
  end.

Definition run (acts : list action) (w : world) : world :=
  fold_left (fun w a => act a w) acts w.

(** The shapes of the events one call leaves: an optional [Validate], then
    nothing or one session with at most one command, on the images
    collection, between its [Copy] and its [Close]. *)
Definition on_images (e : event) : bool :=
  match e with
  | EvDB db coll _ => String.eqb db DatabaseName && String.eqb coll CollectionImages
  | _ => false
  end.

Definition one_session (evs : list event) : bool :=
  match evs with
  | [] => true
  | [EvCopy; EvClose] => true
  | [EvCopy; cmd; EvClose] => on_images cmd
  | _ => false
  end.

Definition well_scoped (evs : list event) : bool :=
  match evs with
  | EvValidate _ :: rest => one_session rest
  | _ => one_session evs
  end.

(** Every stored record passes the entity's validation. *)
Definition stored_valid (c : mgo.collection) : Prop :=
  Forall (fun d => validate d = None) (mgo.docs c).

(** No two stored records have the same key under [ix]. *)
Definition keys_unique (ix : mgo.Index) (ds : list SoftwareImage) : Prop :=
  forall (i j : nat) (d1 d2 : SoftwareImage),
    ds !! i = Some d1 -> ds !! j = Some d2 ->
    mgo.index_key ix d1 = mgo.index_key ix d2 -> i = j.

(** The stored records satisfy every unique index of the collection. *)
Definition unique_indexes_hold (c : mgo.collection) : Prop :=
  forall ix : mgo.Index,
    ix ∈ mgo.indexes c -> mgo.Unique ix = true -> keys_unique ix (mgo.docs c).

(** No two stored records have the same [_id]. *)
Definition primary_keys_unique (c : mgo.collection) : Prop :=
  NoDup (Id <$> mgo.docs c).

(** The effect a call can have on the images collection. *)
Inductive coll_effect (w : world) : call -> mgo.collection -> Prop :=
| effect_none (c : call) : coll_effect w c (images w)
| effect_index :
    coll_effect w CallIndexStorage
      (snd (Collection.ensure_index uniqueNameVersionIndex (images w)))
| effect_insert (l : loc) (s : SoftwareImage) :
    heap w !! l = Some s -> validate s = None ->
    coll_effect w (CallInsert (Some l)) (snd (Collection.insert s (images w)))
| effect_update (l : loc) (s : SoftwareImage) (id : string) :
    heap w !! l = Some s -> validate s = None -> Id s = Some id ->
    coll_effect w (CallUpdate (Some l))
      (snd (Collection.update_id id (set_modified (stamped w) s) (images w)))
| effect_delete (id : string) :
    coll_effect w (CallDelete id) (snd (Collection.remove_id id (images w))).

(** The pointer and error a lookup returns, from what the command gave. *)
Definition lookup_result (image : ptr) (err : option error) : ptr * option error :=
  if is_not_found err then (None, None)
  else match err with
       | Some e => (None, Some e)
       | None => (image, None)
       end.

(** The world after a session with one command [op] that left the
    server as [srv]. *)
Definition after_command (w : world) (op : dbop) (srv : server) : world :=
  set_mongo srv (log (EvDB DatabaseName CollectionImages op) (log EvCopy w)).

(** The driver remembers the engine's index when the command gave no error. *)
Definition remembered (err : option error) (w : world) : world :=
  match err with
  | Some _ => w
  | None =>
      set_index_cache
        ((DatabaseName, CollectionImages, mgo.Key uniqueNameVersionIndex) :: index_cache w) w
  end.

(** * Properties *)

(** ** Stepping through computations *)

Ltac go_unfold :=
  unfold mbind, go_bind, mret, go_ret, emit, panic, with_session, command in *;
  simpl in *.

Ltac engine_unfold :=
  unfold IndexStorage, Exists, Update, FindImageByApplicationAndModel, Insert,
    FindByID, Delete, FindAll, Session.EnsureIndex, Session.FindId_One,
    Session.Find_One, Session.Find_All, Session.Insert, Session.UpdateId,
    Session.RemoveId, Session.decode_new, Validate, SetModified, deref_Id,
    time_Now, load, store, alloc in *.

Lemma serve_fault {A} db coll (zero : A) run (s : server) e rest :
  faults s = Some e :: rest ->
  serve db coll zero run s = (zero, Some e, mkServer (colls s) rest).
Proof. intros Hf. unfold serve. rewrite Hf. reflexivity. Qed.

Lemma serve_run {A} db coll (zero : A) run (s : server) :
  no_fault_due s ->
  serve db coll zero run s =
    (fst (run (coll_at db coll s)),
     mkServer (<[(db, coll) := snd (run (coll_at db coll s))]> (colls s)) (tl (faults s))).
Proof.
  unfold no_fault_due, serve.
  destruct (faults s) as [|[e|] rest]; try tauto;
    intros _; destruct (run _) as [[a err] c']; reflexivity.
Qed.

Lemma db_calls_log (e : event) (w : world) :
  db_calls (log e w) = db_calls w ++ (if is_db_call e then [e] else []).
Proof.
  unfold db_calls, log; simpl. rewrite List.filter_app; simpl.
  destruct (is_db_call e); reflexivity.
Qed.

Lemma db_calls_set_heap h (w : world) : db_calls (set_heap h w) = db_calls w.
Proof. reflexivity. Qed.

Lemma db_calls_set_mongo s (w : world) : db_calls (set_mongo s w) = db_calls w.
Proof. reflexivity. Qed.

(** [IndexStorage] when the driver has, and has not, ensured the index. *)
Lemma IndexStorage_cached (w : world) :
  index_cached w = true ->
  IndexStorage w = (Ret None, log EvClose (log EvCopy w)).
Proof.
  unfold index_cached. intros Hc. unfold IndexStorage, Session.EnsureIndex,
    Session.HasCachedIndex. go_unfold.
  match goal with
  | |- context [if ?b then _ else _] => replace b with true by (symmetry; exact Hc)
  end.
  reflexivity.
Qed.

Lemma IndexStorage_cold (w : world) :
  index_cached w = false ->
  IndexStorage w =
    let r := serve DatabaseName CollectionImages tt
               (Collection.ensure_index uniqueNameVersionIndex) (mongo w) in
    (Ret (snd (fst r)),
     log EvClose
       (remembered (snd (fst r))
          (after_command w (OpEnsureIndex uniqueNameVersionIndex) (snd r)))).
Proof.
  unfold index_cached. intros Hc. unfold IndexStorage, Session.EnsureIndex,
    Session.HasCachedIndex, Session.CacheIndex. go_unfold.
  match goal with
  | |- context [if ?b then _ else _] => replace b with false by (symmetry; exact Hc)
  end.
  unfold after_command, remembered.
  destruct (serve _ _ _ _ _) as [[[] [e|]] s']; reflexivity.
Qed.

(** ** The guards on identifiers, versions and models *)

(** C1 (as the code behaves): [FindByID] answers every non-empty id with
    [ErrStorageInvalidID] and sends nothing to the database, so it never
    reports "no such record" as [(nil, nil)] for such an id; the empty id,
    which the specification wants refused, passes the guard: a [FindId] command for
    it is sent, and with no failure due the answer carries a nil error. *)
Theorem FindByID_guard_inverted :
  (forall (w : world) (c : Ascii.ascii) (s : string),
      FindByID (String c s) w = (Ret (None, Some ErrStorageInvalidID), w))
  /\ (forall w : world,
      db_calls (snd (FindByID "" w)) =
        db_calls w ++ [EvDB DatabaseName CollectionImages (OpFindIdOne "")])
  /\ (forall h ds ixs, exists p : ptr,
      fst (FindByID "" (world_of h ds ixs [])) = Ret (p, None)).
Proof.
  split; [reflexivity | split].
  - intros w. engine_unfold. go_unfold.
    destruct (serve _ _ _ _ _) as [[[d|] err] s']; simpl;
      destruct (is_not_found err); try destruct err; simpl;
      unfold db_calls; simpl; rewrite !List.filter_app; simpl;
      rewrite ?app_nil_r; reflexivity.
  - intros h ds ixs. engine_unfold. go_unfold.
    rewrite serve_run by exact I. simpl.
    unfold coll_at, server_of; simpl. rewrite lookup_singleton_eq; simpl.
    unfold Collection.find_one; simpl.
    destruct (List.find _ ds); simpl; eauto.
Qed.

(** C2 (as the code behaves): [FindImageByApplicationAndModel] answers every
    non-empty version with [ErrStorageInvalidVersion], and an empty version
    with a non-empty model with [ErrStorageInvalidModel], without a command
    to the database; only the pair of two empty strings is looked up. *)
Theorem FindImageByApplicationAndModel_guard_inverted :
  (forall (w : world) (c : Ascii.ascii) (s model : string),
      FindImageByApplicationAndModel (String c s) model w =
        (Ret (None, Some ErrStorageInvalidVersion), w))
  /\ (forall (w : world) (c : Ascii.ascii) (s : string),
      FindImageByApplicationAndModel "" (String c s) w =
        (Ret (None, Some ErrStorageInvalidModel), w))
  /\ (forall w : world,
      db_calls (snd (FindImageByApplicationAndModel "" "" w)) =
        db_calls w ++
        [EvDB DatabaseName CollectionImages
           (OpFindOne [(StorageKeySoftwareImageModel, ""); (StorageKeySoftwareImageName, "")])]).
Proof.
  split; [reflexivity | split; [reflexivity |]].
  intros w. engine_unfold. go_unfold.
  destruct (serve _ _ _ _ _) as [[[d|] err] s']; simpl;
    rewrite ?list_lookup_middle by reflexivity; simpl;
    destruct (is_not_found err); try destruct err; simpl;
    unfold db_calls; simpl; rewrite !List.filter_app; simpl;
    rewrite ?app_nil_r; reflexivity.
Qed.

(** C3 (as the code behaves): [Delete] answers every non-empty id, stored or
    not, with [ErrStorageInvalidID] and removes nothing; only the empty id
    reaches [RemoveId]. *)
Theorem Delete_guard_inverted :
  (forall (w : world) (c : Ascii.ascii) (s : string),
      Delete (String c s) w = (Ret (Some ErrStorageInvalidID), w))
  /\ (forall w : world,
      db_calls (snd (Delete "" w)) =
        db_calls w ++ [EvDB DatabaseName CollectionImages (OpRemoveId "")]).
Proof.
  split; [reflexivity |].
  intros w. engine_unfold. go_unfold.
  destruct (serve _ _ _ _ _) as [[[] err] s']; simpl;
    destruct (is_not_found err); try destruct err; simpl;
    unfold db_calls; simpl; rewrite !List.filter_app; simpl;
    rewrite ?app_nil_r; reflexivity.
Qed.

(** ** Errors of the infrastructure *)

(** C7: when the command an operation sends fails with an error [e] of the
    infrastructure, the operation returns [e] itself, except that the six
    operations that compare [e.Error()] with [mgo.ErrNotFound.Error()] return
    their zero result with a nil error exactly when the two texts are equal;
    [IndexStorage] and [Insert] translate nothing.  ([IndexStorage] sends its
    command unless the driver has ensured the index before; then no command
    is sent, no error can reach the engine, and it returns nil.) *)
Theorem infrastructure_error_propagated (w : world) (e : error)
    (rest : list (option error)) (l : loc) (s : SoftwareImage) (id : string) :
  faults (mongo w) = Some e :: rest ->
  heap w !! l = Some s -> validate s = None -> Id s = Some id ->
  let nf := String.eqb (Error e) (Error mgo.ErrNotFound) in
  fst (IndexStorage w) = Ret (if index_cached w then None else Some e)
  /\ fst (Insert (Some l) w) = Ret (Some e)
  /\ fst (Exists "" w) = Ret (false, if nf then None else Some e)
  /\ fst (Update (Some l) w) = Ret (false, if nf then None else Some e)
  /\ fst (FindImageByApplicationAndModel "" "" w) = Ret (None, if nf then None else Some e)
  /\ fst (FindByID "" w) = Ret (None, if nf then None else Some e)
  /\ fst (Delete "" w) = Ret (if nf then None else Some e)
  /\ fst (FindAll w) = Ret ([], if nf then None else Some e).
Proof.
  intros Hf Hh Hv Hid nf. subst nf.
  split.
  { destruct (index_cached w) eqn:Hc.
    - rewrite (IndexStorage_cached w Hc). reflexivity.
    - rewrite (IndexStorage_cold w Hc). cbv zeta.
      rewrite (serve_fault _ _ _ _ _ _ _ Hf). reflexivity. }
  repeat split; engine_unfold; go_unfold;
    repeat (progress (rewrite ?Hh, ?Hv, ?Hid,
                        ?(serve_fault _ _ _ _ _ _ _ Hf),
                        ?list_lookup_insert_eq by (eapply lookup_lt_Some; eassumption);
                      simpl));
    try reflexivity;
    destruct (String.eqb (Error e) "not found"); reflexivity.
Qed.

(** C7, at an error that is not [mgo.ErrNotFound] but has its text, and at
    one with another text. *)
Lemma infrastructure_error_propagated_witness :
  let alias := mkError 99 "not found" in
  let reset := mkError 98 "connection reset by peer" in
  let h := [img "a" "n" "m"] in
  (fst (Delete "" (world_of h [] [] [Some alias])) = Ret None
   /\ fst (FindAll (world_of h [] [] [Some alias])) = Ret ([], None)
   /\ fst (Insert (Some 0%nat) (world_of h [] [] [Some alias])) = Ret (Some alias))
  /\ (fst (Delete "" (world_of h [] [] [Some reset])) = Ret (Some reset)
      /\ fst (Update (Some 0%nat) (world_of h [] [] [Some reset])) = Ret (false, Some reset)).
Proof.
  intros alias reset h.
  pose proof (infrastructure_error_propagated (world_of h [] [] [Some alias]) alias []
                0%nat (img "a" "n" "m") "a" eq_refl eq_refl eq_refl eq_refl) as Ha.
  pose proof (infrastructure_error_propagated (world_of h [] [] [Some reset]) reset []
                0%nat (img "a" "n" "m") "a" eq_refl eq_refl eq_refl eq_refl) as Hr.
  simpl in Ha, Hr.
  destruct Ha as (_ & Ha2 & _ & _ & _ & _ & Ha7 & Ha8).
  destruct Hr as (_ & _ & _ & Hr4 & _ & _ & Hr7 & _).
  repeat split; assumption.
Defined.

(** ** Provisioning the index *)

Lemma images_served (w : world) (c : mgo.collection)
    (m : gmap (string * string) mgo.collection) :
  colls (mongo w) = <[(DatabaseName, CollectionImages) := c]> m -> images w = c.
Proof. intros Hc. unfold images, coll_at. rewrite Hc, lookup_insert_eq. reflexivity. Qed.

Lemma IndexStorage_served (w : world) :
  index_cached w = false -> no_fault_due (mongo w) ->
  IndexStorage w =
    (Ret (snd (fst (Collection.ensure_index uniqueNameVersionIndex (images w)))),
     log EvClose
       (remembered (snd (fst (Collection.ensure_index uniqueNameVersionIndex (images w))))
          (after_command w (OpEnsureIndex uniqueNameVersionIndex)
             (mkServer (<[(DatabaseName, CollectionImages) :=
                            snd (Collection.ensure_index uniqueNameVersionIndex (images w))]>
                          (colls (mongo w)))
                       (tl (faults (mongo w))))))).
Proof.
  intros Hc Hn. rewrite (IndexStorage_cold w Hc). cbv zeta.
  rewrite serve_run by exact Hn. reflexivity.
Qed.

Lemma stored_index_in_map (w : world) (ix : mgo.Index) :
  ix ∈ mgo.indexes (images w) ->
  colls (mongo w) !! (DatabaseName, CollectionImages) = Some (images w).
Proof.
  unfold images, coll_at.
  destruct (colls (mongo w) !! (DatabaseName, CollectionImages)) as [c|]; simpl.
  - reflexivity.
  - intros Hin. inversion Hin.
Qed.

Lemma remembered_images (err : option error) (w : world) :
  images (log EvClose (remembered err w)) = images w.
Proof. destruct err; reflexivity. Qed.

Lemma ensure_index_nil (ix : mgo.Index) (c : mgo.collection) :
  snd (fst (Collection.ensure_index ix c)) = None ->
  ix ∈ mgo.indexes (snd (Collection.ensure_index ix c)).
Proof.
  unfold Collection.ensure_index.
  case_bool_decide as Hin; [intros _; exact Hin |].
  destruct (existsb _ _); [discriminate |].
  destruct (_ && _); [discriminate |].
  intros _. simpl. apply elem_of_app. right. apply list_elem_of_singleton. reflexivity.
Qed.

(** A first [IndexStorage] that returns nil leaves the index in the
    collection and in the driver's cache. *)
Lemma IndexStorage_cold_nil (w : world) :
  index_cached w = false -> fst (IndexStorage w) = Ret None ->
  uniqueNameVersionIndex ∈ mgo.indexes (images (snd (IndexStorage w)))
  /\ index_cached (snd (IndexStorage w)) = true.
Proof.
  intros Hc Hnil.
  assert (Hn : no_fault_due (mongo w)).
  { unfold no_fault_due. destruct (faults (mongo w)) as [|[e|] rest] eqn:Hf; try exact I.
    rewrite (IndexStorage_cold w Hc) in Hnil. cbv zeta in Hnil.
    rewrite (serve_fault _ _ _ _ _ _ _ Hf) in Hnil. discriminate Hnil. }
  pose proof (IndexStorage_served w Hc Hn) as Hrun.
  assert (Hres : fst (IndexStorage w) =
                 Ret (snd (fst (Collection.ensure_index uniqueNameVersionIndex (images w)))))
    by (rewrite Hrun; reflexivity).
  rewrite Hres in Hnil. injection Hnil as Hnil.
  split.
  - assert (Himg : images (snd (IndexStorage w)) =
                   snd (Collection.ensure_index uniqueNameVersionIndex (images w))).
    { rewrite Hrun. simpl. rewrite remembered_images.
      apply (images_served _ _ (colls (mongo w))). reflexivity. }
    rewrite Himg. apply ensure_index_nil. exact Hnil.
  - rewrite Hrun, Hnil. unfold index_cached. simpl.
    first [reflexivity | apply bool_decide_eq_true_2; left].
Qed.

(** C8: the index [IndexStorage] asks for is the unique index named
    [uniqueNameVersionIndex] over the two fields
    [softwareimageconstructor.name] and [softwareimageconstructor.model], not
    built in the background.  Unless the driver has ensured it before,
    [IndexStorage] sends exactly one [EnsureIndex] command with it, returns
    whatever error the command gives (a failure of the infrastructure or a
    refusal of the server), and when it returns nil the index is in place
    and remembered; on a server that has the index already the command
    changes no collection.  When the driver has ensured the index before -
    so after every [IndexStorage] that returned nil - [IndexStorage] sends
    nothing, changes nothing and returns nil. *)
Theorem IndexStorage_unique_index :
  (mgo.Key uniqueNameVersionIndex =
     ["softwareimageconstructor.name"; "softwareimageconstructor.model"]
   /\ mgo.Unique uniqueNameVersionIndex = true
   /\ mgo.Background uniqueNameVersionIndex = false
   /\ mgo.IndexName uniqueNameVersionIndex = "uniqueNameVersionIndex")
  /\ (forall w : world,
        db_calls (snd (IndexStorage w)) =
          db_calls w ++
          (if index_cached w then []
           else [EvDB DatabaseName CollectionImages (OpEnsureIndex uniqueNameVersionIndex)]))
  /\ (forall (w : world) e rest,
        index_cached w = false ->
        faults (mongo w) = Some e :: rest -> fst (IndexStorage w) = Ret (Some e))
  /\ (forall w : world,
        index_cached w = false -> no_fault_due (mongo w) ->
        fst (IndexStorage w) =
          Ret (snd (fst (Collection.ensure_index uniqueNameVersionIndex (images w))))
        /\ images (snd (IndexStorage w)) =
             snd (Collection.ensure_index uniqueNameVersionIndex (images w)))
  /\ (forall w : world,
        index_cached w = false -> fst (IndexStorage w) = Ret None ->
        uniqueNameVersionIndex ∈ mgo.indexes (images (snd (IndexStorage w)))
        /\ index_cached (snd (IndexStorage w)) = true)
  /\ (forall w : world,
        index_cached w = false -> no_fault_due (mongo w) ->
        uniqueNameVersionIndex ∈ mgo.indexes (images w) ->
        fst (IndexStorage w) = Ret None
        /\ colls (mongo (snd (IndexStorage w))) = colls (mongo w)
        /\ heap (snd (IndexStorage w)) = heap w)
  /\ (forall w : world,
        index_cached w = true ->
        IndexStorage w = (Ret None, log EvClose (log EvCopy w)))
  /\ (forall w : world,
        fst (IndexStorage w) = Ret None ->
        IndexStorage (snd (IndexStorage w)) =
          (Ret None, log EvClose (log EvCopy (snd (IndexStorage w))))).
Proof.
  split; [repeat split |].
  split.
  { intros w. destruct (index_cached w) eqn:Hc.
    - rewrite (IndexStorage_cached w Hc). simpl.
      rewrite !db_calls_log. simpl. rewrite !app_nil_r. reflexivity.
    - rewrite (IndexStorage_cold w Hc). cbv zeta.
      destruct (serve _ _ _ _ _) as [[[] [e|]] s']; simpl;
        unfold db_calls; simpl; rewrite !List.filter_app; simpl;
        rewrite ?app_nil_r; reflexivity. }
  split.
  { intros w e rest Hc Hf. rewrite (IndexStorage_cold w Hc). cbv zeta.
    rewrite (serve_fault _ _ _ _ _ _ _ Hf). reflexivity. }
  split.
  { intros w Hc Hn. rewrite (IndexStorage_served w Hc Hn). simpl. split; [reflexivity |].
    rewrite remembered_images.
    apply (images_served _ _ (colls (mongo w))). reflexivity. }
  split; [exact IndexStorage_cold_nil |].
  split.
  { intros w Hc Hn Hin. rewrite (IndexStorage_served w Hc Hn).
    unfold Collection.ensure_index.
    rewrite bool_decide_eq_true_2 by exact Hin. simpl.
    repeat split. apply insert_id. eapply stored_index_in_map; eassumption. }
  split; [exact IndexStorage_cached |].
  intros w Hnil. apply IndexStorage_cached.
  destruct (index_cached w) eqn:Hc.
  - rewrite (IndexStorage_cached w Hc). exact Hc.
  - exact (proj2 (IndexStorage_cold_nil w Hc Hnil)).
Qed.

(** C8, run: provisioning a fresh database; provisioning it again, with the
    connection down by then; and provisioning for the first time while the
    connection is down. *)
Lemma IndexStorage_unique_index_witness :
  let down := mkError 97 "no reachable servers" in
  let w0 := world_of [] [img "a" "n" "m"] [] [None; Some down] in
  let w1 := snd (IndexStorage w0) in
  (fst (IndexStorage w0) = Ret None /\ mgo.indexes (images w1) = [uniqueNameVersionIndex])
  /\ (fst (IndexStorage w1) = Ret None
      /\ mongo (snd (IndexStorage w1)) = mongo w1)
  /\ fst (IndexStorage (world_of [] [] [] [Some down])) = Ret (Some down).
Proof.
  intros down w0 w1.
  destruct IndexStorage_unique_index as (_ & _ & Hfail & Hrun & _ & _ & _ & Hagain).
  split; [| split].
  - split.
    + rewrite (proj1 (Hrun w0 eq_refl I)). vm_compute. reflexivity.
    + unfold w1. rewrite (proj2 (Hrun w0 eq_refl I)). vm_compute. reflexivity.
  - assert (Hr0 : fst (IndexStorage w0) = Ret None) by (vm_compute; reflexivity).
    pose proof (Hagain w0 Hr0) as Hre. fold w1 in Hre.
    rewrite Hre. split; reflexivity.
  - apply (Hfail _ down []); reflexivity.
Defined.

(** ** Listing the collection *)

Lemma decode_all_spec (ds : list SoftwareImage) (w : world) :
  Session.decode_all ds w =
    (Ret (map Some (seq (length (heap w)) (length ds))), set_heap (heap w ++ ds) w).
Proof.
  revert w. induction ds as [|d ds IH]; intros w; simpl.
  - unfold mret, go_ret, set_heap. rewrite app_nil_r. destruct w; reflexivity.
  - unfold alloc. go_unfold. rewrite IH. simpl.
    rewrite length_app, Nat.add_1_r. simpl. rewrite <- app_assoc. reflexivity.
Qed.

Lemma deref_fresh (h ds : list SoftwareImage) :
  map (deref (h ++ ds)) (map Some (seq (length h) (length ds))) = map Some ds.
Proof.
  revert h. induction ds as [|d ds IH]; intros h; simpl; [reflexivity |].
  rewrite list_lookup_middle by reflexivity. f_equal.
  specialize (IH (h ++ [d])). rewrite length_app, Nat.add_1_r, <- app_assoc in IH.
  exact IH.
Qed.

Lemma filter_all (ds : list SoftwareImage) : List.filter (mgo.matches []) ds = ds.
Proof. induction ds as [|d ds IH]; simpl; [| rewrite IH]; reflexivity. Qed.

(** [FindAll] lists the stored documents, all of them and in their order,
    unless the connection fails. *)
Lemma FindAll_images_spec (w : world) : FindAll_images w = Ret (listing (mongo w)).
Proof.
  unfold FindAll_images, listing. engine_unfold. go_unfold.
  destruct (faults (mongo w)) as [|[e|] rest] eqn:Hf.
  - rewrite serve_run by (unfold no_fault_due; rewrite Hf; exact I). simpl.
    rewrite decode_all_spec, filter_all. simpl. rewrite deref_fresh. reflexivity.
  - rewrite (serve_fault _ _ _ _ _ _ _ Hf). simpl.
    destruct (String.eqb (Error e) "not found"); reflexivity.
  - rewrite serve_run by (unfold no_fault_due; rewrite Hf; exact I). simpl.
    rewrite decode_all_spec, filter_all. simpl. rewrite deref_fresh. reflexivity.
Qed.

(** ** Validation before writes *)

Lemma Validate_run (w : world) (l : loc) (s : SoftwareImage) :
  heap w !! l = Some s ->
  Validate (Some l) w = (Ret (validate s), log (EvValidate l) w).
Proof. intros Hh. engine_unfold. go_unfold. rewrite Hh. reflexivity. Qed.

Lemma Insert_rejected (w : world) (l : loc) (s : SoftwareImage) (e : error) :
  heap w !! l = Some s -> validate s = Some e ->
  Insert (Some l) w = (Ret (Some e), log (EvValidate l) w).
Proof.
  intros Hh Hv. unfold Insert, mbind, go_bind.
  rewrite (Validate_run w l s Hh), Hv. reflexivity.
Qed.

Lemma Update_rejected (w : world) (l : loc) (s : SoftwareImage) (e : error) :
  heap w !! l = Some s -> validate s = Some e ->
  Update (Some l) w = (Ret (false, Some e), log (EvValidate l) w).
Proof.
  intros Hh Hv. unfold Update, mbind, go_bind.
  rewrite (Validate_run w l s Hh), Hv. reflexivity.
Qed.

(** C5: [Insert] of a nil image returns [ErrStorageInvalidImage] and touches
    nothing; [Insert] of an image that fails [Validate] returns the error
    [Validate] gave, sends no command, and leaves the server as it was, so
    that [FindAll] lists afterwards what it listed before - and, when the
    record was not stored already, a listing without it. *)
Theorem Insert_validation_gate :
  (forall w : world, Insert None w = (Ret (Some ErrStorageInvalidImage), w))
  /\ (forall (w : world) (l : loc) (s : SoftwareImage) (e : error),
        heap w !! l = Some s -> validate s = Some e ->
        fst (Insert (Some l) w) = Ret (Some e)
        /\ mongo (snd (Insert (Some l) w)) = mongo w
        /\ db_calls (snd (Insert (Some l) w)) = db_calls w
        /\ FindAll_images (snd (Insert (Some l) w)) = FindAll_images w
        /\ (s ∉ stored w ->
            forall ps err, FindAll_images (snd (Insert (Some l) w)) = Ret (ps, err) ->
                           Some s ∉ ps)).
Proof.
  split; [reflexivity |].
  intros w l s e Hh Hv. rewrite (Insert_rejected w l s e Hh Hv). simpl.
  repeat split.
  - rewrite db_calls_log. simpl. apply app_nil_r.
  - rewrite !FindAll_images_spec. reflexivity.
  - intros Hnot ps err. rewrite FindAll_images_spec. simpl.
    unfold listing. fold (images w). fold (stored w).
    destruct (faults (mongo w)) as [|[e'|] rest]; intros [= <- <-];
      try (intros Hin; apply list_elem_of_fmap in Hin as (s' & [= ->] & Hs'); tauto).
    intros Hin. inversion Hin.
Qed.

(** C5, run: an image with an empty name is refused and not listed. *)
Lemma Insert_validation_gate_witness :
  let bad := mkSoftwareImage (Some "b") (Some "") (Some "m") None in
  let w := world_of [bad] [img "a" "n" "m"] [] [] in
  fst (Insert (Some 0%nat) w) = Ret (Some ErrValidation)
  /\ mongo (snd (Insert (Some 0%nat) w)) = mongo w
  /\ FindAll_images (snd (Insert (Some 0%nat) w)) = Ret ([Some (img "a" "n" "m")], None).
Proof.
  intros bad w.
  destruct (proj2 Insert_validation_gate w 0%nat bad ErrValidation eq_refl eq_refl)
    as (Hr & Hm & _ & Hl & _).
  split; [exact Hr | split; [exact Hm |]].
  etransitivity; [exact Hl |]. vm_compute. reflexivity.
Defined.

Lemma Insert_accepted (w : world) (l : loc) (s : SoftwareImage) :
  heap w !! l = Some s -> validate s = None ->
  Insert (Some l) w =
    let r := serve DatabaseName CollectionImages tt (Collection.insert s) (mongo w) in
    (Ret (snd (fst r)),
     log EvClose
       (set_mongo (snd r)
          (log (EvDB DatabaseName CollectionImages (OpInsert s))
             (log EvCopy (log (EvValidate l) w))))).
Proof.
  intros Hh Hv. unfold Insert, mbind, go_bind.
  rewrite (Validate_run w l s Hh), Hv.
  engine_unfold. go_unfold. rewrite Hh. simpl.
  destruct (serve _ _ _ _ _) as [[[] [e|]] s']; reflexivity.
Qed.

Lemma Update_accepted (w : world) (l : loc) (s : SoftwareImage) (id : string) :
  heap w !! l = Some s -> validate s = None -> Id s = Some id ->
  Update (Some l) w =
    let r := serve DatabaseName CollectionImages tt
               (Collection.update_id id (set_modified (stamped w) s)) (mongo w) in
    (Ret (found_or_error (snd (fst r))), after_update w l s id (snd r)).
Proof.
  intros Hh Hv Hid. unfold Update, mbind, go_bind.
  rewrite (Validate_run w l s Hh), Hv.
  engine_unfold. go_unfold.
  repeat (progress (rewrite ?Hh, ?Hid,
                      ?list_lookup_insert_eq by (eapply lookup_lt_Some; eassumption);
                    simpl)).
  unfold found_or_error, after_update, stamped.
  destruct (serve _ _ _ _ _) as [[[] err] s']; simpl.
  destruct (is_not_found err); [reflexivity |]. destruct err; reflexivity.
Qed.

(** Without an identifier to dereference, [Update] stops after stamping the
    image, before any command. *)
Lemma Update_nil_Id (w : world) (l : loc) (s : SoftwareImage) :
  heap w !! l = Some s -> validate s = None -> Id s = None ->
  Update (Some l) w =
    (Panic nil_deref,
     log EvClose
       (set_heap (<[l := set_modified (stamped w) s]> (heap w))
          (set_clock (stamped w) (log EvCopy (log (EvValidate l) w))))).
Proof.
  intros Hh Hv Hid. unfold Update, mbind, go_bind.
  rewrite (Validate_run w l s Hh), Hv.
  engine_unfold. go_unfold.
  repeat (progress (rewrite ?Hh, ?Hid,
                      ?list_lookup_insert_eq by (eapply lookup_lt_Some; eassumption);
                    simpl)).
  reflexivity.
Qed.

Lemma Insert_dangling (w : world) (l : loc) :
  heap w !! l = None -> Insert (Some l) w = (Panic nil_deref, w).
Proof. intros Hh. engine_unfold. go_unfold. rewrite Hh. reflexivity. Qed.

Lemma Update_dangling (w : world) (l : loc) :
  heap w !! l = None -> Update (Some l) w = (Panic nil_deref, w).
Proof. intros Hh. engine_unfold. go_unfold. rewrite Hh. reflexivity. Qed.

(** [Update] of nil: it does what [Validate] does on a nil receiver, and
    when that returns nil it panics once the session is open, at
    [SetModified] or two statements later at [*image.Id]. *)
Lemma Update_nil (w : world) :
  Update None w =
    match validate_nil w with
    | Ret (Some e) => (Ret (false, Some e), w)
    | Ret None =>
        (Panic nil_deref, log EvClose (set_clock (stamped w) (log EvCopy w)))
    | Panic msg => (Panic msg, w)
    end.
Proof.
  unfold Update, Validate, mbind, go_bind.
  destruct (validate_nil w) as [[e|]|msg]; reflexivity.
Qed.

(** C6: on both write paths the first thing that happens to an image is its
    [Validate], before the session is even copied, so every command comes
    after it; when [Validate] returns an error the operation returns it, no
    command is sent and the server is left as it was.  Without an image
    behind the pointer there is nothing to validate, and no command either. *)
Theorem validation_precedes_database :
  (forall (w : world) (image : ptr),
      deref (heap w) image = None ->
      db_calls (snd (Insert image w)) = db_calls w
      /\ db_calls (snd (Update image w)) = db_calls w)
  /\ (forall (w : world) (l : loc) (s : SoftwareImage),
        heap w !! l = Some s ->
        (exists rest, trace (snd (Insert (Some l) w)) = trace w ++ EvValidate l :: rest)
        /\ (exists rest, trace (snd (Update (Some l) w)) = trace w ++ EvValidate l :: rest))
  /\ (forall (w : world) (l : loc) (s : SoftwareImage) (e : error),
        heap w !! l = Some s -> validate s = Some e ->
        (fst (Insert (Some l) w) = Ret (Some e)
         /\ mongo (snd (Insert (Some l) w)) = mongo w
         /\ db_calls (snd (Insert (Some l) w)) = db_calls w)
        /\ (fst (Update (Some l) w) = Ret (false, Some e)
            /\ mongo (snd (Update (Some l) w)) = mongo w
            /\ db_calls (snd (Update (Some l) w)) = db_calls w)).
Proof.
  split; [| split].
  - intros w [l|] Hd; simpl in Hd.
    + rewrite (Insert_dangling w l Hd), (Update_dangling w l Hd). split; reflexivity.
    + split; [reflexivity |]. rewrite Update_nil.
      destruct (validate_nil w) as [[e|]|msg]; try reflexivity.
      unfold db_calls; simpl. rewrite !List.filter_app. simpl.
      rewrite !app_nil_r. reflexivity.
  - intros w l s Hh. split.
    + destruct (validate s) as [e|] eqn:Hv.
      * rewrite (Insert_rejected w l s e Hh Hv). simpl. eauto.
      * rewrite (Insert_accepted w l s Hh Hv). simpl.
        rewrite <- !app_assoc. simpl. eauto.
    + destruct (validate s) as [e|] eqn:Hv.
      * rewrite (Update_rejected w l s e Hh Hv). simpl. eauto.
      * destruct (Id s) as [id|] eqn:Hid.
        -- rewrite (Update_accepted w l s id Hh Hv Hid). simpl.
           rewrite <- !app_assoc. simpl. eauto.
        -- rewrite (Update_nil_Id w l s Hh Hv Hid). simpl.
           rewrite <- !app_assoc. simpl. eauto.
  - intros w l s e Hh Hv.
    rewrite (Insert_rejected w l s e Hh Hv), (Update_rejected w l s e Hh Hv). simpl.
    rewrite db_calls_log. simpl. rewrite app_nil_r. repeat split.
Qed.

(** C6, run: an image without a model, offered to both write paths of a
    database that holds one record. *)
Lemma validation_precedes_database_witness :
  let bad := mkSoftwareImage (Some "a") (Some "n") None None in
  let w := world_of [bad] [img "a" "n" "m"] [] [] in
  (trace (snd (Insert (Some 0%nat) w)) = [EvValidate 0%nat]
   /\ trace (snd (Update (Some 0%nat) w)) = [EvValidate 0%nat])
  /\ (fst (Insert (Some 0%nat) w) = Ret (Some ErrValidation)
      /\ mongo (snd (Insert (Some 0%nat) w)) = mongo w)
  /\ (fst (Update (Some 0%nat) w) = Ret (false, Some ErrValidation)
      /\ mongo (snd (Update (Some 0%nat) w)) = mongo w).
Proof.
  intros bad w.
  destruct validation_precedes_database as (_ & _ & Hgate).
  destruct (Hgate w 0%nat bad ErrValidation eq_refl eq_refl)
    as ((Hi & Hmi & _) & (Hu & Hmu & _)).
  split; [split; reflexivity |].
  split; split; assumption.
Defined.

(** ** What Update does to the caller's image *)

Lemma serve_update_absent (s : server) (id : string) (d : SoftwareImage) :
  no_fault_due s ->
  mgo.find_index (mgo.has_id id) (mgo.docs (coll_at DatabaseName CollectionImages s)) = None ->
  fst (serve DatabaseName CollectionImages tt (Collection.update_id id d) s)
    = (tt, Some mgo.ErrNotFound).
Proof.
  intros Hn Ha. rewrite serve_run by exact Hn. simpl.
  unfold Collection.update_id. rewrite Ha. reflexivity.
Qed.

(** C9: [Update] writes the time it reads from the clock into the caller's
    image before it sends the update: whenever [Validate] passes, the image
    behind the pointer carries the new timestamp afterwards, whatever the
    database answers - the command itself already carries the stamped image,
    an absent record gives [(false, nil)] and a failing connection gives the
    error, both with the image stamped.  Only when [Validate] fails is the
    heap left as it was. *)
Theorem Update_stamps_caller_image (w : world) (l : loc) (s : SoftwareImage) :
  heap w !! l = Some s ->
  (forall e : error, validate s = Some e -> heap (snd (Update (Some l) w)) = heap w)
  /\ (validate s = None ->
        heap (snd (Update (Some l) w)) = <[l := set_modified (stamped w) s]> (heap w)
        /\ (exists s', heap (snd (Update (Some l) w)) !! l = Some s'
                       /\ Modified s' = Some (stamped w)))
  /\ (forall id : string, validate s = None -> Id s = Some id ->
        db_calls (snd (Update (Some l) w)) =
          db_calls w ++ [EvDB DatabaseName CollectionImages
                           (OpUpdateId id (set_modified (stamped w) s))]
        /\ (no_fault_due (mongo w) ->
            mgo.find_index (mgo.has_id id) (stored w) = None ->
            fst (Update (Some l) w) = Ret (false, None))
        /\ (forall e rest, faults (mongo w) = Some e :: rest ->
            is_not_found (Some e) = false ->
            fst (Update (Some l) w) = Ret (false, Some e))).
Proof.
  intros Hh. split; [| split].
  - intros e Hv. rewrite (Update_rejected w l s e Hh Hv). reflexivity.
  - intros Hv.
    assert (Hheap : heap (snd (Update (Some l) w)) = <[l := set_modified (stamped w) s]> (heap w)).
    { destruct (Id s) as [id|] eqn:Hid.
      - rewrite (Update_accepted w l s id Hh Hv Hid). reflexivity.
      - rewrite (Update_nil_Id w l s Hh Hv Hid). reflexivity. }
    split; [exact Hheap |].
    exists (set_modified (stamped w) s). rewrite Hheap. split; [| reflexivity].
    apply list_lookup_insert_eq. eapply lookup_lt_Some; eassumption.
  - intros id Hv Hid. rewrite (Update_accepted w l s id Hh Hv Hid). simpl.
    split; [| split].
    + unfold after_update. rewrite db_calls_log, db_calls_set_mongo, db_calls_log,
        db_calls_set_heap. simpl. unfold db_calls; simpl.
      rewrite !List.filter_app. simpl. rewrite !app_nil_r. reflexivity.
    + intros Hn Ha. rewrite serve_update_absent by assumption. reflexivity.
    + intros e rest Hf Hnf. rewrite (serve_fault _ _ _ _ _ _ _ Hf). simpl.
      unfold found_or_error. simpl in Hnf |- *. rewrite Hnf. reflexivity.
Qed.

(** C9, run: a valid image whose record is not in the database. *)
Lemma Update_stamps_caller_image_witness :
  let w := world_of [img "a" "n" "m"] [] [] [] in
  fst (Update (Some 0%nat) w) = Ret (false, None)
  /\ heap (snd (Update (Some 0%nat) w)) =
       [mkSoftwareImage (Some "a") (Some "n") (Some "m") (Some 1005)].
Proof.
  intros w.
  destruct (Update_stamps_caller_image w 0%nat (img "a" "n" "m") eq_refl)
    as (_ & Hstamp & Hcmd).
  destruct (Hcmd "a" eq_refl eq_refl) as (_ & Habsent & _).
  split.
  - apply Habsent; [exact I | reflexivity].
  - etransitivity; [exact (proj1 (Hstamp eq_refl)) |]. reflexivity.
Defined.

(** ** Update and the nil pointer *)

(** C10, as the code has it: [Update] has no guard against nil and returns
    no [ErrStorageInvalidImage] of its own.  It calls [Validate] first,
    whatever the image: on a nil image it returns the error [Validate]
    gives on a nil receiver, if it gives one, and panics otherwise, and
    never gets to the database.  [*image.Id] is dereferenced only after
    [Validate] has returned nil: an image that passes [Validate] with a nil
    [Id] panics there, an image that fails [Validate] gets the error back
    whatever its [Id], and an image with an [Id] never panics.  The errors
    [Update] returns are those of [Validate] or of the database. *)
Theorem Update_no_nil_guard :
  (forall w : world,
      fst (Insert None w) = Ret (Some ErrStorageInvalidImage)
      /\ fst (Update None w) =
           match validate_nil w with
           | Ret (Some e) => Ret (false, Some e)
           | Ret None => Panic nil_deref
           | Panic msg => Panic msg
           end
      /\ mongo (snd (Update None w)) = mongo w)
  /\ (forall (w : world) (l : loc) (s : SoftwareImage),
        heap w !! l = Some s -> validate s = None -> Id s = None ->
        fst (Update (Some l) w) = Panic nil_deref)
  /\ (forall (w : world) (l : loc) (s : SoftwareImage) (e : error),
        heap w !! l = Some s -> validate s = Some e ->
        fst (Update (Some l) w) = Ret (false, Some e))
  /\ (forall (w : world) (l : loc) (s : SoftwareImage) (id : string),
        heap w !! l = Some s -> Id s = Some id ->
        exists r, fst (Update (Some l) w) = Ret r)
  /\ (forall (w : world) (p : ptr) (b : bool) (e : error),
        fst (Update p w) = Ret (b, Some e) ->
        (exists l s, p = Some l /\ heap w !! l = Some s /\ validate s = Some e)
        \/ (p = None /\ validate_nil w = Ret (Some e))
        \/ (exists rest, faults (mongo w) = Some e :: rest)
        \/ e = mgo.ErrDuplicateKey).
Proof.
  split.
  { intros w. rewrite Update_nil.
    destruct (validate_nil w) as [[e|]|msg]; repeat split. }
  split; [intros w l s Hh Hv Hid; rewrite (Update_nil_Id w l s Hh Hv Hid); reflexivity |].
  split; [intros w l s e Hh Hv; rewrite (Update_rejected w l s e Hh Hv); reflexivity |].
  split.
  - intros w l s id Hh Hid. destruct (validate s) as [e|] eqn:Hv.
    + rewrite (Update_rejected w l s e Hh Hv). simpl. eauto.
    + rewrite (Update_accepted w l s id Hh Hv Hid). simpl. eauto.
  - intros w [l|] b e.
    2:{ rewrite Update_nil. destruct (validate_nil w) as [[e'|]|msg]; try discriminate.
        intros [= <- <-]. right. left. auto. }
    destruct (heap w !! l) as [s|] eqn:Hh; [| rewrite (Update_dangling w l Hh); discriminate].
    destruct (validate s) as [e'|] eqn:Hv.
    { rewrite (Update_rejected w l s e' Hh Hv). simpl. intros [= <- <-]. left. eauto. }
    destruct (Id s) as [id|] eqn:Hid;
      [| rewrite (Update_nil_Id w l s Hh Hv Hid); discriminate].
    rewrite (Update_accepted w l s id Hh Hv Hid). simpl.
    unfold serve. destruct (faults (mongo w)) as [|[e0|] rest] eqn:Hf; simpl.
    2:{ unfold found_or_error; simpl.
        destruct (String.eqb (Error e0) "not found"); intros [= <- <-]. eauto 6. }
    all: unfold Collection.update_id;
      destruct (mgo.find_index _ _); simpl; [| discriminate];
      destruct (mgo.violates_unique _ _ _); simpl; [| discriminate];
      intros [= <- <-]; right; right; right; reflexivity.
Qed.

(** C10, run: an image that passes [Validate] without an [Id], one that
    fails it, and a well-formed one. *)
Lemma Update_no_nil_guard_witness :
  let anon := mkSoftwareImage None (Some "n") (Some "m") None in
  let bad := mkSoftwareImage None (Some "") (Some "m") None in
  let w := world_of [anon; img "a" "n" "m"; bad] [] [] [] in
  fst (Update (Some 0%nat) w) = Panic nil_deref
  /\ (exists r, fst (Update (Some 1%nat) w) = Ret r)
  /\ fst (Update (Some 2%nat) w) = Ret (false, Some ErrValidation).
Proof.
  intros anon bad w.
  destruct Update_no_nil_guard as (_ & Hnil & Hbad & Hok & _).
  split; [| split].
  - apply (Hnil w 0%nat anon); reflexivity.
  - apply (Hok w 1%nat (img "a" "n" "m") "a"); reflexivity.
  - apply (Hbad w 2%nat bad ErrValidation); reflexivity.
Defined.

(** C10, against "[*image.Id] is dereferenced unconditionally, so [Update]
    is panic-free only if [image.Id] is non-nil": an image whose [Id] is
    nil and whose name is empty.  [Validate] fails, [Update] returns its
    error before the dereference, and no session is opened. *)
Lemma Update_nil_Id_without_panic :
  let bad := mkSoftwareImage None (Some "") (Some "m") None in
  let w := world_of [bad] [] [] [] in
  Id bad = None
  /\ fst (Update (Some 0%nat) w) = Ret (false, Some ErrValidation)
  /\ trace (snd (Update (Some 0%nat) w)) = [EvValidate 0%nat].
Proof. intros bad w. repeat split. Qed.

(** ** Update of a stored record *)

Lemma doc_field_set_modified (k : string) (t : Time) (s : SoftwareImage) :
  mgo.doc_field k (set_modified t s) = mgo.doc_field k s.
Proof.
  unfold mgo.doc_field.
  repeat match goal with |- context [String.eqb ?a ?b] => destruct (String.eqb a b) end;
    reflexivity.
Qed.

Lemma index_key_set_modified (ix : mgo.Index) (t : Time) (s : SoftwareImage) :
  mgo.index_key ix (set_modified t s) = mgo.index_key ix s.
Proof.
  unfold mgo.index_key. apply map_ext. intros k. apply doc_field_set_modified.
Qed.

Lemma violates_unique_set_modified ixs others (t : Time) (s : SoftwareImage) :
  mgo.violates_unique ixs others (set_modified t s) = mgo.violates_unique ixs others s.
Proof.
  unfold mgo.violates_unique.
  induction ixs as [|ix ixs IH]; simpl; [reflexivity |].
  rewrite IH, index_key_set_modified. reflexivity.
Qed.




Lemma has_id_spec (id : string) (d : SoftwareImage) :
  mgo.has_id id d = bool_decide (Id d = Some id).
Proof. reflexivity. Qed.

Lemma Update_served (w : world) (l : loc) (s : SoftwareImage) (id : string) :
  heap w !! l = Some s -> validate s = None -> Id s = Some id ->
  no_fault_due (mongo w) ->
  Update (Some l) w =
    (Ret (found_or_error
            (snd (fst (Collection.update_id id (set_modified (stamped w) s) (images w))))),
     after_update w l s id
       (mkServer (<[(DatabaseName, CollectionImages) :=
                      snd (Collection.update_id id (set_modified (stamped w) s) (images w))]>
                    (colls (mongo w)))
                 (tl (faults (mongo w))))).
Proof.
  intros Hh Hv Hid Hn. rewrite (Update_accepted w l s id Hh Hv Hid).
  cbv zeta. rewrite serve_run by exact Hn. reflexivity.
Qed.

Lemma stored_after_update (w : world) (l : loc) (s : SoftwareImage) (id : string)
    (c : mgo.collection) (fs : list (option error)) :
  stored (after_update w l s id
            (mkServer (<[(DatabaseName, CollectionImages) := c]> (colls (mongo w))) fs))
    = mgo.docs c.
Proof.
  unfold stored. f_equal. apply (images_served _ c (colls (mongo w))). reflexivity.
Qed.






(** * Further properties of the engine *)

(** ** Each operation, spelled out *)

Lemma Delete_run (w : world) :
  Delete "" w =
    let r := serve DatabaseName CollectionImages tt (Collection.remove_id "") (mongo w) in
    (Ret (if is_not_found (snd (fst r)) then None else snd (fst r)),
     log EvClose (after_command w (OpRemoveId "") (snd r))).
Proof.
  engine_unfold. go_unfold. unfold after_command.
  destruct (serve _ _ _ _ _) as [[[] err] s']; simpl.
  destruct (is_not_found err); [reflexivity |]. destruct err; reflexivity.
Qed.

Lemma FindByID_run (w : world) :
  FindByID "" w =
    let r := serve DatabaseName CollectionImages None
               (Collection.find_one (mgo.has_id "")) (mongo w) in
    let w1 := after_command w (OpFindIdOne "") (snd r) in
    match fst (fst r) with
    | Some d => (Ret (lookup_result (Some (length (heap w))) (snd (fst r))),
                 log EvClose (set_heap (heap w ++ [d]) w1))
    | None => (Ret (lookup_result None (snd (fst r))), log EvClose w1)
    end.
Proof.
  engine_unfold. go_unfold. unfold after_command, lookup_result.
  destruct (serve _ _ _ _ _) as [[[d|] err] s']; simpl;
    destruct (is_not_found err); try reflexivity; destruct err; reflexivity.
Qed.

Lemma Exists_run (w : world) :
  Exists "" w =
    let r := serve DatabaseName CollectionImages None
               (Collection.find_one (mgo.has_id "")) (mongo w) in
    let w1 := after_command w (OpFindIdOne "") (snd r) in
    (Ret (found_or_error (snd (fst r))),
     log EvClose (match fst (fst r) with
                  | Some d => set_heap (heap w ++ [d]) w1
                  | None => w1
                  end)).
Proof.
  engine_unfold. go_unfold. unfold after_command, found_or_error.
  destruct (serve _ _ _ _ _) as [[[d|] err] s']; simpl;
    destruct (is_not_found err); try reflexivity; destruct err; reflexivity.
Qed.

Lemma FindImageByApplicationAndModel_run (w : world) :
  FindImageByApplicationAndModel "" "" w =
    let q := [(StorageKeySoftwareImageModel, ""); (StorageKeySoftwareImageName, "")] in
    let r := serve DatabaseName CollectionImages None
               (Collection.find_one (mgo.matches q)) (mongo w) in
    (Ret (lookup_result (Some (length (heap w))) (snd (fst r))),
     log EvClose
       (set_heap (heap w ++ [default zero_image (fst (fst r))])
          (after_command w (OpFindOne q) (snd r)))).
Proof.
  engine_unfold. go_unfold. unfold after_command, lookup_result.
  destruct (serve _ _ _ _ _) as [[[d|] err] s']; simpl;
    rewrite ?list_lookup_middle by reflexivity; simpl;
    rewrite ?insert_app_r_alt, ?Nat.sub_diag by reflexivity; simpl;
    destruct (is_not_found err); try reflexivity; destruct err; reflexivity.
Qed.

Lemma FindAll_run (w : world) :
  FindAll w =
    let r := serve DatabaseName CollectionImages []
               (Collection.find_all (mgo.matches [])) (mongo w) in
    let ps := map Some (seq (length (heap w)) (length (fst (fst r)))) in
    (Ret (if is_not_found (snd (fst r)) then (ps, None)
          else match snd (fst r) with
               | Some e => ([], Some e)
               | None => (ps, None)
               end),
     log EvClose
       (set_heap (heap w ++ fst (fst r)) (after_command w (OpFindAll []) (snd r)))).
Proof.
  engine_unfold. go_unfold. unfold after_command.
  destruct (serve _ _ _ _ _) as [[ds err] s']; simpl.
  rewrite decode_all_spec. simpl.
  destruct (is_not_found err); [reflexivity |]. destruct err; reflexivity.
Qed.

(** ** What a call does to the database *)

Lemma serve_coll {A} (zero : A) (run : mgo.collection -> Collection.reply A) (s : server) :
  coll_at DatabaseName CollectionImages
    (snd (serve DatabaseName CollectionImages zero run s))
  = coll_at DatabaseName CollectionImages s
  \/ coll_at DatabaseName CollectionImages
       (snd (serve DatabaseName CollectionImages zero run s))
     = snd (run (coll_at DatabaseName CollectionImages s)).
Proof.
  unfold serve. destruct (faults s) as [|[e|] rest]; simpl.
  - right. destruct (run _) as [[a err] c']; simpl.
    unfold coll_at at 1; simpl. rewrite lookup_insert_eq. reflexivity.
  - left. reflexivity.
  - right. destruct (run _) as [[a err] c']; simpl.
    unfold coll_at at 1; simpl. rewrite lookup_insert_eq. reflexivity.
Qed.

Lemma serve_read {A} (zero : A) (run : mgo.collection -> Collection.reply A) (s : server) :
  (forall c, snd (run c) = c) ->
  coll_at DatabaseName CollectionImages
    (snd (serve DatabaseName CollectionImages zero run s))
  = coll_at DatabaseName CollectionImages s.
Proof.
  intros Hread. destruct (serve_coll zero run s) as [H | H]; rewrite H; [| rewrite Hread];
    reflexivity.
Qed.

Lemma serve_elsewhere {A} (zero : A) (run : mgo.collection -> Collection.reply A)
    (s : server) (k : string * string) :
  k <> (DatabaseName, CollectionImages) ->
  colls (snd (serve DatabaseName CollectionImages zero run s)) !! k = colls s !! k.
Proof.
  intros Hk. unfold serve. destruct (faults s) as [|[e|] rest]; simpl;
    try destruct (run _) as [[a err] c']; simpl;
    rewrite ?lookup_insert_ne by congruence; reflexivity.
Qed.

Lemma find_one_read (p : SoftwareImage -> bool) (c : mgo.collection) :
  snd (Collection.find_one p c) = c.
Proof. unfold Collection.find_one. destruct (List.find p (mgo.docs c)); reflexivity. Qed.

Lemma find_all_read (p : SoftwareImage -> bool) (c : mgo.collection) :
  snd (Collection.find_all p c) = c.
Proof. reflexivity. Qed.

(** The server a call leaves is the one it found, or the one the single
    command it sent left. *)
Lemma exec_mongo (c : call) (w : world) :
  mongo (exec c w) = mongo w
  \/ exists (A : Type) (zero : A) (run : mgo.collection -> Collection.reply A),
       mongo (exec c w) = snd (serve DatabaseName CollectionImages zero run (mongo w))
       /\ match c with
          | CallIndexStorage =>
              forall x, snd (run x) = snd (Collection.ensure_index uniqueNameVersionIndex x)
          | CallInsert (Some l) =>
              exists s, heap w !! l = Some s /\ validate s = None
                        /\ forall x, snd (run x) = snd (Collection.insert s x)
          | CallUpdate (Some l) =>
              exists s id, heap w !! l = Some s /\ validate s = None /\ Id s = Some id
                /\ forall x, snd (run x) =
                             snd (Collection.update_id id (set_modified (stamped w) s) x)
          | CallDelete id => forall x, snd (run x) = snd (Collection.remove_id id x)
          | _ => forall x, snd (run x) = x
          end.
Proof.
  destruct c as [|id|[l|]|version model|[l|]|id|id|]; cbn [exec].
  - destruct (index_cached w) eqn:Hc.
    + left. rewrite (IndexStorage_cached w Hc). reflexivity.
    + right. rewrite (IndexStorage_cold w Hc). cbv zeta.
      exists _, tt, (Collection.ensure_index uniqueNameVersionIndex).
      split; [| reflexivity].
      destruct (snd (fst (serve _ _ _ _ _))); reflexivity.
  - destruct id as [|a id]; [| left; reflexivity].
    right. rewrite Exists_run. simpl.
    exists _, None, (Collection.find_one (mgo.has_id "")).
    split; [| apply find_one_read].
    destruct (fst (fst (serve _ _ _ _ _))); reflexivity.
  - destruct (heap w !! l) as [s|] eqn:Hh;
      [| rewrite (Update_dangling w l Hh); left; reflexivity].
    destruct (validate s) as [e|] eqn:Hv;
      [rewrite (Update_rejected w l s e Hh Hv); left; reflexivity |].
    destruct (Id s) as [id|] eqn:Hid;
      [| rewrite (Update_nil_Id w l s Hh Hv Hid); left; reflexivity].
    right. rewrite (Update_accepted w l s id Hh Hv Hid). simpl.
    exists _, tt, (Collection.update_id id (set_modified (stamped w) s)).
    split; [reflexivity |]. exists s, id. auto.
  - left. rewrite Update_nil. destruct (validate_nil w) as [[e|]|msg]; reflexivity.
  - destruct version as [|a version]; [| left; reflexivity].
    destruct model as [|a model]; [| left; reflexivity].
    right. rewrite FindImageByApplicationAndModel_run. simpl.
    eexists _, None, (Collection.find_one _). split; [reflexivity | apply find_one_read].
  - destruct (heap w !! l) as [s|] eqn:Hh;
      [| rewrite (Insert_dangling w l Hh); left; reflexivity].
    destruct (validate s) as [e|] eqn:Hv;
      [rewrite (Insert_rejected w l s e Hh Hv); left; reflexivity |].
    right. rewrite (Insert_accepted w l s Hh Hv). simpl.
    exists _, tt, (Collection.insert s). split; [reflexivity |]. exists s. auto.
  - left. reflexivity.
  - destruct id as [|a id]; [| left; reflexivity].
    right. rewrite FindByID_run. simpl.
    exists _, None, (Collection.find_one (mgo.has_id "")).
    split; [| apply find_one_read].
    destruct (fst (fst (serve _ _ _ _ _))); reflexivity.
  - destruct id as [|a id]; [| left; reflexivity].
    right. rewrite Delete_run. simpl. eauto 6.
  - right. rewrite FindAll_run. simpl.
    exists _, [], (Collection.find_all (mgo.matches [])). split; [reflexivity | apply find_all_read].
Qed.

(** What a call can do to the images collection: nothing, or the one write
    its name says, and that only for an image that passed [Validate]. *)
Lemma exec_effect (c : call) (w : world) : coll_effect w c (images (exec c w)).
Proof.
  destruct (exec_mongo c w) as [Hm | (A & zero & run & Hm & Hrun)].
  - unfold images. rewrite Hm. apply effect_none.
  - unfold images at 1. rewrite Hm.
    destruct (serve_coll zero run (mongo w)) as [H | H]; rewrite H;
      [apply effect_none |].
    fold (images w).
    destruct c as [|id|[l|]|version model|[l|]|id|id|];
      try (rewrite Hrun; apply effect_none).
    + rewrite Hrun. apply effect_index.
    + destruct Hrun as (s & id & Hh & Hv & Hid & Hrun). rewrite Hrun.
      apply effect_update; assumption.
    + destruct Hrun as (s & Hh & Hv & Hrun). rewrite Hrun.
      apply effect_insert; assumption.
    + rewrite Hrun. apply effect_delete.
Qed.

(** ** Facts about the collection operations *)

Lemma find_index_lookup (p : SoftwareImage -> bool) (ds : list SoftwareImage) (i : nat) :
  mgo.find_index p ds = Some i -> exists d, ds !! i = Some d /\ p d = true.
Proof.
  revert i. induction ds as [|d0 ds IH]; intros i; simpl; [discriminate |].
  destruct (p d0) eqn:Hp0.
  - intros [= <-]. eauto.
  - destruct (mgo.find_index p ds) as [j|]; simpl; [| discriminate].
    intros [= <-]. apply IH. reflexivity.
Qed.

Lemma find_index_first (p : SoftwareImage -> bool) (ds : list SoftwareImage) (i : nat) :
  mgo.find_index p ds = Some i ->
  forall j d, (j < i)%nat -> ds !! j = Some d -> p d = false.
Proof.
  revert i. induction ds as [|d0 ds IH]; intros i; simpl; [discriminate |].
  destruct (p d0) eqn:Hp0.
  - intros [= <-] j d Hj. lia.
  - destruct (mgo.find_index p ds) as [k|] eqn:Hk; simpl; [| discriminate].
    intros [= <-] [|j] d Hj; simpl.
    + intros [= <-]. exact Hp0.
    + apply (IH k eq_refl). lia.
Qed.

Lemma find_index_absent (p : SoftwareImage -> bool) (ds : list SoftwareImage) :
  mgo.find_index p ds = None -> forall d, d ∈ ds -> p d = false.
Proof.
  induction ds as [|d0 ds IH]; simpl; intros Hf d Hd; [inversion Hd |].
  destruct (p d0) eqn:Hp0; [discriminate |].
  destruct (mgo.find_index p ds); [discriminate |].
  apply elem_of_cons in Hd as [-> | Hd]; [exact Hp0 | apply IH; [reflexivity | exact Hd]].
Qed.

Lemma has_id_true (id : string) (d : SoftwareImage) :
  mgo.has_id id d = true <-> Id d = Some id.
Proof. rewrite has_id_spec. apply bool_decide_eq_true. Qed.

Lemma violates_unique_false (ixs : list mgo.Index) (others : list SoftwareImage)
    (d : SoftwareImage) :
  mgo.violates_unique ixs others d = false <->
  forall ix o, ix ∈ ixs -> mgo.Unique ix = true -> o ∈ others ->
               mgo.index_key ix o <> mgo.index_key ix d.
Proof.
  unfold mgo.violates_unique. split.
  - intros Hv ix o Hix Hu Ho Heq.
    apply not_true_iff_false in Hv. apply Hv.
    apply existsb_exists. exists ix. split; [apply list_elem_of_In; exact Hix |].
    rewrite Hu. simpl. apply existsb_exists. exists o.
    split; [apply list_elem_of_In; exact Ho | apply bool_decide_eq_true_2; exact Heq].
  - intros Hall. apply not_true_iff_false. intros Hv.
    apply existsb_exists in Hv as (ix & Hix & Hv).
    apply andb_true_iff in Hv as (Hu & Hv).
    apply existsb_exists in Hv as (o & Ho & Heq).
    apply bool_decide_eq_true in Heq.
    apply (Hall ix o); [apply list_elem_of_In; exact Hix | exact Hu
                       | apply list_elem_of_In; exact Ho | exact Heq].
Qed.

Lemma unique_keys_sound (ix : mgo.Index) (ds : list SoftwareImage) :
  mgo.unique_keys ix ds = true -> keys_unique ix ds.
Proof.
  induction ds as [|d ds IH]; simpl.
  - intros _ i j d1 d2 Hi. rewrite lookup_nil in Hi. discriminate.
  - intros Hu. apply andb_true_iff in Hu as (Hhead & Htail).
    apply negb_true_iff in Hhead.
    assert (Hfresh : forall o, o ∈ ds -> mgo.index_key ix o <> mgo.index_key ix d).
    { intros o Ho Heq. apply not_true_iff_false in Hhead. apply Hhead.
      apply existsb_exists. exists o.
      split; [apply list_elem_of_In; exact Ho | apply bool_decide_eq_true_2; exact Heq]. }
    specialize (IH Htail).
    intros [|i] [|j] d1 d2; simpl.
    + reflexivity.
    + intros [= <-] Hj Heq. exfalso.
      apply (Hfresh d2); [eapply list_elem_of_lookup_2; exact Hj | congruence].
    + intros Hi [= <-] Heq. exfalso.
      apply (Hfresh d1); [eapply list_elem_of_lookup_2; exact Hi | congruence].
    + intros Hi Hj Heq. f_equal. exact (IH i j d1 d2 Hi Hj Heq).
Qed.

Lemma keys_unique_snoc (ix : mgo.Index) (ds : list SoftwareImage) (d : SoftwareImage) :
  keys_unique ix ds ->
  (forall o, o ∈ ds -> mgo.index_key ix o <> mgo.index_key ix d) ->
  keys_unique ix (ds ++ [d]).
Proof.
  intros Hu Hfresh i j d1 d2 Hi Hj Heq.
  apply lookup_snoc_Some in Hi as [[Hil Hi] | [-> ->]];
    apply lookup_snoc_Some in Hj as [[Hjl Hj] | [-> ->]].
  - exact (Hu i j d1 d2 Hi Hj Heq).
  - exfalso. apply (Hfresh d1); [eapply list_elem_of_lookup_2; exact Hi | exact Heq].
  - exfalso. apply (Hfresh d2); [eapply list_elem_of_lookup_2; exact Hj | congruence].
  - reflexivity.
Qed.

Lemma elem_of_delete_other (ds : list SoftwareImage) (i j : nat) (o : SoftwareImage) :
  i <> j -> ds !! j = Some o -> o ∈ delete i ds.
Proof.
  intros Hne Hj. apply list_elem_of_lookup.
  destruct (decide (j < i)%nat) as [Hlt | Hge].
  - exists j. rewrite list_lookup_delete_lt by exact Hlt. exact Hj.
  - destruct j as [|j]; [lia |]. exists j.
    rewrite list_lookup_delete_ge by lia. exact Hj.
Qed.

Lemma keys_unique_replace (ix : mgo.Index) (ds : list SoftwareImage) (i : nat)
    (d : SoftwareImage) :
  keys_unique ix ds ->
  (forall o, o ∈ delete i ds -> mgo.index_key ix o <> mgo.index_key ix d) ->
  keys_unique ix (<[i := d]> ds).
Proof.
  intros Hu Hfresh j k d1 d2 Hj Hk Heq.
  apply list_lookup_insert_Some in Hj as [(-> & -> & Hjl) | (Hji & Hj)];
    apply list_lookup_insert_Some in Hk as [(-> & -> & Hkl) | (Hki & Hk)].
  - reflexivity.
  - exfalso. apply (Hfresh d2); [eapply elem_of_delete_other; eassumption | congruence].
  - exfalso. apply (Hfresh d1); [eapply elem_of_delete_other; eassumption | exact Heq].
  - exact (Hu j k d1 d2 Hj Hk Heq).
Qed.

Lemma keys_unique_delete (ix : mgo.Index) (ds : list SoftwareImage) (i : nat) :
  keys_unique ix ds -> keys_unique ix (delete i ds).
Proof.
  intros Hu j k d1 d2 Hj Hk Heq.
  rewrite list_lookup_delete in Hj, Hk.
  destruct (decide (j < i)%nat), (decide (k < i)%nat);
    pose proof (Hu _ _ d1 d2 Hj Hk Heq); lia.
Qed.

(** ** Invariants of the images collection *)

Lemma ensure_index_docs (ix : mgo.Index) (c : mgo.collection) :
  mgo.docs (snd (Collection.ensure_index ix c)) = mgo.docs c.
Proof.
  unfold Collection.ensure_index.
  repeat match goal with |- context [if ?b then _ else _] => destruct b end; reflexivity.
Qed.

Lemma effect_valid (w : world) (c : call) (c' : mgo.collection) :
  stored_valid (images w) -> coll_effect w c c' -> stored_valid c'.
Proof.
  unfold stored_valid. intros Hall Heff.
  destruct Heff as [c | | l s Hh Hv | l s id Hh Hv Hid | id].
  - exact Hall.
  - rewrite ensure_index_docs. exact Hall.
  - unfold Collection.insert.
    repeat match goal with |- context [if ?b then _ else _] => destruct b end;
      simpl; try exact Hall.
    apply Forall_app. split; [exact Hall | apply Forall_singleton; exact Hv].
  - unfold Collection.update_id.
    destruct (mgo.find_index _ _); [| exact Hall].
    destruct (mgo.violates_unique _ _ _); simpl; [exact Hall |].
    apply Forall_insert; [exact Hall | exact Hv].
  - unfold Collection.remove_id.
    destruct (mgo.find_index _ _); simpl; [| exact Hall].
    apply Forall_delete. exact Hall.
Qed.

Lemma effect_indexes (w : world) (c : call) (c' : mgo.collection) (ix : mgo.Index) :
  ix ∈ mgo.indexes (images w) -> coll_effect w c c' -> ix ∈ mgo.indexes c'.
Proof.
  intros Hin Heff.
  destruct Heff as [c | | l s Hh Hv | l s id Hh Hv Hid | id].
  - exact Hin.
  - unfold Collection.ensure_index.
    repeat match goal with |- context [if ?b then _ else _] => destruct b end;
      simpl; try exact Hin.
    apply elem_of_app. left. exact Hin.
  - unfold Collection.insert.
    repeat match goal with |- context [if ?b then _ else _] => destruct b end; exact Hin.
  - unfold Collection.update_id.
    destruct (mgo.find_index _ _); [| exact Hin].
    destruct (mgo.violates_unique _ _ _); exact Hin.
  - unfold Collection.remove_id. destruct (mgo.find_index _ _); exact Hin.
Qed.

Lemma effect_unique (w : world) (c : call) (c' : mgo.collection) :
  unique_indexes_hold (images w) -> coll_effect w c c' -> unique_indexes_hold c'.
Proof.
  unfold unique_indexes_hold. intros Hold Heff.
  destruct Heff as [c | | l s Hh Hv | l s id Hh Hv Hid | id].
  - exact Hold.
  - unfold Collection.ensure_index.
    case_bool_decide as Hin; [exact Hold |].
    destruct (existsb _ _); [exact Hold |].
    destruct (mgo.Unique uniqueNameVersionIndex
              && negb (mgo.unique_keys uniqueNameVersionIndex (mgo.docs (images w))))
      eqn:Hchk; [exact Hold |].
    simpl. intros ix Hix Hu.
    apply elem_of_app in Hix as [Hix | Hix]; [exact (Hold ix Hix Hu) |].
    apply list_elem_of_singleton in Hix as ->.
    rewrite Hu in Hchk. simpl in Hchk. apply negb_false_iff in Hchk.
    apply unique_keys_sound. exact Hchk.
  - unfold Collection.insert.
    destruct (existsb _ _); [exact Hold |].
    destruct (mgo.violates_unique _ _ _) eqn:Hvu; [exact Hold |].
    simpl. intros ix Hix Hu. apply keys_unique_snoc; [exact (Hold ix Hix Hu) |].
    intros o Ho. exact (proj1 (violates_unique_false _ _ _) Hvu ix o Hix Hu Ho).
  - unfold Collection.update_id.
    destruct (mgo.find_index _ _) as [i|]; [| exact Hold].
    destruct (mgo.violates_unique _ _ _) eqn:Hvu; [exact Hold |].
    simpl. intros ix Hix Hu. apply keys_unique_replace; [exact (Hold ix Hix Hu) |].
    intros o Ho. exact (proj1 (violates_unique_false _ _ _) Hvu ix o Hix Hu Ho).
  - unfold Collection.remove_id.
    destruct (mgo.find_index _ _) as [i|]; [| exact Hold].
    simpl. intros ix Hix Hu. apply keys_unique_delete. exact (Hold ix Hix Hu).
Qed.

Lemma effect_primary (w : world) (c : call) (c' : mgo.collection) :
  primary_keys_unique (images w) -> coll_effect w c c' -> primary_keys_unique c'.
Proof.
  unfold primary_keys_unique. intros Hnd Heff.
  destruct Heff as [c | | l s Hh Hv | l s id Hh Hv Hid | id].
  - exact Hnd.
  - rewrite ensure_index_docs. exact Hnd.
  - unfold Collection.insert.
    destruct (existsb _ _) eqn:Hex; [exact Hnd |].
    destruct (mgo.violates_unique _ _ _); [exact Hnd |].
    simpl. rewrite fmap_app. apply NoDup_app. split; [exact Hnd |].
    split; [| apply NoDup_singleton].
    intros x Hx Hx'. apply list_elem_of_singleton in Hx' as ->.
    apply list_elem_of_fmap in Hx as (o & Heq & Ho). simpl in Heq.
    apply not_true_iff_false in Hex. apply Hex.
    apply existsb_exists. exists o.
    split; [apply list_elem_of_In; exact Ho | apply bool_decide_eq_true_2; congruence].
  - unfold Collection.update_id.
    destruct (mgo.find_index _ _) as [i|] eqn:Hi; [| exact Hnd].
    destruct (mgo.violates_unique _ _ _); [exact Hnd |].
    simpl. rewrite list_fmap_insert.
    apply find_index_lookup in Hi as (o & Ho & Hp). apply has_id_true in Hp.
    rewrite list_insert_id; [exact Hnd |].
    rewrite list_lookup_fmap, Ho. simpl. congruence.
  - unfold Collection.remove_id.
    destruct (mgo.find_index _ _) as [i|]; [| exact Hnd].
    simpl. rewrite list_fmap_delete.
    eapply sublist_NoDup; [exact Hnd | apply sublist_delete].
Qed.

Lemma act_effect (a : action) (w : world) :
  exists c, coll_effect w c (images (act a w)).
Proof.
  destruct a as [c | h | fs]; simpl.
  - exists c. apply exec_effect.
  - exists CallFindAll. exact (effect_none w CallFindAll).
  - exists CallFindAll. exact (effect_none w CallFindAll).
Qed.

Lemma run_invariant (P : mgo.collection -> Prop) :
  (forall w c c', P (images w) -> coll_effect w c c' -> P c') ->
  forall (acts : list action) (w : world), P (images w) -> P (images (run acts w)).
Proof.
  intros Hstep acts. induction acts as [|a acts IH]; intros w HP; [exact HP |].
  simpl. apply IH. destruct (act_effect a w) as [c Hc]. exact (Hstep w c _ HP Hc).
Qed.

Lemma run_app (acts1 acts2 : list action) (w : world) :
  run (acts1 ++ acts2) w = run acts2 (run acts1 w).
Proof. unfold run. apply fold_left_app. Qed.

Lemma IndexStorage_nil_indexed (w : world) :
  cache_sound w ->
  fst (IndexStorage w) = Ret None ->
  uniqueNameVersionIndex ∈ mgo.indexes (images (snd (IndexStorage w))).
Proof.
  intros Hsound Hnil. destruct (index_cached w) eqn:Hc.
  - rewrite (IndexStorage_cached w Hc). exact (Hsound Hc).
  - exact (proj1 (IndexStorage_cold_nil w Hc Hnil)).
Qed.

(** X1: validation is an invariant of the collection.  Whatever sequence of
    calls of the engine, of rewrites of the caller's images and of changes
    of the failures ahead, if every stored record passed [Validate] before,
    every stored record passes it after. *)
Theorem stored_records_stay_valid (w : world) (acts : list action) :
  stored_valid (images w) -> stored_valid (images (run acts w)).
Proof. apply run_invariant. exact effect_valid. Qed.

(** X1, run: a valid and an invalid image are offered to [Insert] and
    [Update], the caller spoils the stored image's copy and updates again. *)
Lemma stored_records_stay_valid_witness :
  let bad := mkSoftwareImage (Some "b") (Some "") (Some "m") None in
  let w := world_of [img "a" "n" "m"; bad] [] [] [] in
  let acts := [Engine (CallInsert (Some 0%nat)); Engine (CallInsert (Some 1%nat));
               Caller [mkSoftwareImage (Some "a") None (Some "m") None; bad];
               Engine (CallUpdate (Some 0%nat)); Engine (CallUpdate (Some 1%nat))] in
  stored (run acts w) = [img "a" "n" "m"] /\ stored_valid (images (run acts w)).
Proof.
  intros bad w acts. split; [vm_compute; reflexivity |].
  apply (stored_records_stay_valid w acts). unfold stored_valid.
  vm_compute. constructor.
Defined.

(** X2: the primary key stays unique.  If no two stored records share an
    [_id], no sequence of calls and other actions makes two records share
    one: [Insert] is refused for a stored [_id], [Update] keeps the [_id] of
    the record it replaces, [Delete] only removes. *)
Theorem primary_keys_stay_unique (w : world) (acts : list action) :
  primary_keys_unique (images w) -> primary_keys_unique (images (run acts w)).
Proof. apply run_invariant. exact effect_primary. Qed.

(** X2, run: the same [_id] is inserted twice, with different natural keys. *)
Lemma primary_keys_stay_unique_witness :
  let w := world_of [img "a" "n" "m"; img "a" "n2" "m2"] [] [] [] in
  let acts := [Engine (CallInsert (Some 0%nat)); Engine (CallInsert (Some 1%nat))] in
  stored (run acts w) = [img "a" "n" "m"]
  /\ primary_keys_unique (images (run acts w)).
Proof.
  intros w acts. split; [vm_compute; reflexivity |].
  apply (primary_keys_stay_unique w acts). unfold primary_keys_unique.
  vm_compute. constructor.
Defined.

(** X3: the natural key is unique once the index is provisioned.  From a
    collection whose unique indexes hold (an empty one, say), in a process
    whose driver remembers the engine's index only if it is there (a new
    process, say), once [IndexStorage] has returned nil, no sequence of
    calls and other actions leaves two stored records with the same name and
    model. *)
Theorem natural_key_unique_once_indexed (w : world) (acts : list action) :
  unique_indexes_hold (images w) ->
  cache_sound w ->
  fst (IndexStorage w) = Ret None ->
  forall (i j : nat) (d1 d2 : SoftwareImage),
    stored (run acts (snd (IndexStorage w))) !! i = Some d1 ->
    stored (run acts (snd (IndexStorage w))) !! j = Some d2 ->
    Name d1 = Name d2 -> Model d1 = Model d2 -> i = j.
Proof.
  intros Hold Hsound Hnil i j d1 d2 Hi Hj Hname Hmodel.
  pose proof (exec_effect CallIndexStorage w) as Heff. cbn [exec] in Heff.
  pose proof (effect_unique w _ _ Hold Heff) as Hold1.
  pose proof (run_invariant unique_indexes_hold effect_unique acts _ Hold1) as Hold2.
  pose proof (run_invariant (fun c => uniqueNameVersionIndex ∈ mgo.indexes c)
                (fun w c c' => effect_indexes w c c' uniqueNameVersionIndex)
                acts _ (IndexStorage_nil_indexed w Hsound Hnil)) as Hin.
  apply (Hold2 uniqueNameVersionIndex Hin eq_refl i j d1 d2 Hi Hj).
  change ([Name d1; Model d1] = [Name d2; Model d2]). congruence.
Qed.

(** X3, run: after provisioning, a second image with the name and model of
    a stored one is refused, by [Insert] and by [Update] alike. *)
Lemma natural_key_unique_once_indexed_witness :
  let w := world_of [img "a" "n" "m"; img "b" "n" "m"; img "c" "n" "x"] [] [] [] in
  let acts := [Engine (CallInsert (Some 0%nat)); Engine (CallInsert (Some 1%nat));
               Engine (CallInsert (Some 2%nat));
               Caller [img "a" "n" "m"; img "b" "n" "m"; img "c" "n" "m"];
               Engine (CallUpdate (Some 2%nat))] in
  stored (run acts (snd (IndexStorage w))) = [img "a" "n" "m"; img "c" "n" "x"]
  /\ forall d1 d2,
       stored (run acts (snd (IndexStorage w))) !! 0%nat = Some d1 ->
       stored (run acts (snd (IndexStorage w))) !! 1%nat = Some d2 ->
       Name d1 = Name d2 -> Model d1 = Model d2 -> False.
Proof.
  intros w acts. split; [vm_compute; reflexivity |].
  intros d1 d2 H0 H1 Hn Hm.
  assert (Hold : unique_indexes_hold (images w)).
  { intros ix Hix. vm_compute in Hix. inversion Hix. }
  assert (Hsound : cache_sound w) by (intros Hc; discriminate Hc).
  pose proof (natural_key_unique_once_indexed w acts Hold Hsound eq_refl
                0%nat 1%nat d1 d2 H0 H1 Hn Hm) as Heq.
  discriminate Heq.
Defined.

(** ** Sessions, commands and the caller's memory *)

Ltac trace_shape :=
  simpl; rewrite <- ?app_assoc; simpl;
  first [ exists []; split; [symmetry; apply app_nil_r | reflexivity]
        | eexists; split; [reflexivity | reflexivity] ].

(** X4: every call keeps its session to itself.  The events a call adds
    are an optional [Validate] followed by nothing or by exactly one
    session - [Copy], at most one command, [Close] - so no command is sent
    outside a session, no call sends two, every command goes to the images
    collection of the service's database, and the session is closed on
    every way out, the panic of [Update] included. *)
Theorem calls_are_session_scoped (c : call) (w : world) :
  exists evs : list event,
    trace (exec c w) = trace w ++ evs /\ well_scoped evs = true.
Proof.
  destruct c as [|id|[l|]|version model|[l|]|id|id|]; cbn [exec].
  - destruct (index_cached w) eqn:Hc.
    + rewrite (IndexStorage_cached w Hc). trace_shape.
    + rewrite (IndexStorage_cold w Hc). cbv zeta.
      destruct (snd (fst (serve _ _ _ _ _))); trace_shape.
  - destruct id as [|a id]; [| trace_shape].
    rewrite Exists_run. cbv zeta.
    destruct (fst (fst (serve _ _ _ _ _))); trace_shape.
  - destruct (heap w !! l) as [s|] eqn:Hh;
      [| rewrite (Update_dangling w l Hh); trace_shape].
    destruct (validate s) as [e|] eqn:Hv;
      [rewrite (Update_rejected w l s e Hh Hv); trace_shape |].
    destruct (Id s) as [id|] eqn:Hid;
      [| rewrite (Update_nil_Id w l s Hh Hv Hid); trace_shape].
    rewrite (Update_accepted w l s id Hh Hv Hid). trace_shape.
  - rewrite Update_nil. destruct (validate_nil w) as [[e|]|msg]; trace_shape.
  - destruct version as [|a version]; [| trace_shape].
    destruct model as [|a model]; [| trace_shape].
    rewrite FindImageByApplicationAndModel_run. trace_shape.
  - destruct (heap w !! l) as [s|] eqn:Hh;
      [| rewrite (Insert_dangling w l Hh); trace_shape].
    destruct (validate s) as [e|] eqn:Hv;
      [rewrite (Insert_rejected w l s e Hh Hv); trace_shape |].
    rewrite (Insert_accepted w l s Hh Hv). trace_shape.
  - trace_shape.
  - destruct id as [|a id]; [| trace_shape].
    rewrite FindByID_run. cbv zeta.
    destruct (fst (fst (serve _ _ _ _ _))); trace_shape.
  - destruct id as [|a id]; [| trace_shape].
    rewrite Delete_run. trace_shape.
  - rewrite FindAll_run. trace_shape.
Qed.

(** X5: the engine works on one collection only.  Whatever is called,
    every other collection of every database is left as it was. *)
Theorem other_collections_untouched (w : world) (acts : list action)
    (k : string * string) :
  k <> (DatabaseName, CollectionImages) ->
  colls (mongo (run acts w)) !! k = colls (mongo w) !! k.
Proof.
  intros Hk. revert w. induction acts as [|a acts IH]; intros w; [reflexivity |].
  simpl. rewrite IH. destruct a as [c | h | fs]; simpl; try reflexivity.
  destruct (exec_mongo c w) as [Hm | (A & zero & run & Hm & _)]; rewrite Hm;
    [reflexivity | apply serve_elsewhere; exact Hk].
Qed.

(** X5, run: a collection of device records beside the images. *)
Lemma other_collections_untouched_witness :
  let devices := mgo.mkCollection [img "d" "x" "y"] [] in
  let w := mkWorld [img "a" "n" "m"]
             (mkServer {[ ("inventory", "devices") := devices ]} []) 0 1 [] []
             (Panic nil_deref) in
  let acts := [Engine CallIndexStorage; Engine (CallInsert (Some 0%nat));
               Engine (CallDelete ""); Engine CallFindAll] in
  colls (mongo (run acts w)) !! ("inventory", "devices") = Some devices.
Proof.
  intros devices w acts.
  rewrite (other_collections_untouched w acts ("inventory", "devices"));
    [vm_compute; reflexivity | discriminate].
Defined.

(** X6: the caller's images are only ever stamped.  An image on the heap is
    the same after any call, except after an [Update] of that very image
    that passed [Validate], which changes its modification time and nothing
    else; lookups and listings put their results into new cells. *)
Theorem caller_images_only_stamped (c : call) (w : world) (l : loc) (s : SoftwareImage) :
  heap w !! l = Some s ->
  heap (exec c w) !! l = Some s
  \/ (c = CallUpdate (Some l) /\ validate s = None
      /\ heap (exec c w) !! l = Some (set_modified (stamped w) s)).
Proof.
  intros Hl.
  assert (Hext : forall t, (heap w ++ t) !! l = Some s)
    by (intros t; rewrite lookup_app_l by (eapply lookup_lt_Some; exact Hl); exact Hl).
  destruct c as [|id|[l'|]|version model|[l'|]|id|id|]; cbn [exec].
  - left. destruct (index_cached w) eqn:Hc.
    + rewrite (IndexStorage_cached w Hc). exact Hl.
    + rewrite (IndexStorage_cold w Hc). cbv zeta.
      destruct (snd (fst (serve _ _ _ _ _))); exact Hl.
  - destruct id as [|a id]; [| left; exact Hl].
    rewrite Exists_run. cbv zeta.
    destruct (fst (fst (serve _ _ _ _ _))); left; simpl; [apply Hext | exact Hl].
  - destruct (heap w !! l') as [s'|] eqn:Hh;
      [| rewrite (Update_dangling w l' Hh); left; exact Hl].
    destruct (validate s') as [e|] eqn:Hv;
      [rewrite (Update_rejected w l' s' e Hh Hv); left; exact Hl |].
    assert (Hheap : heap (snd (Update (Some l') w)) =
                    <[l' := set_modified (stamped w) s']> (heap w)).
    { destruct (Id s') as [id|] eqn:Hid.
      - rewrite (Update_accepted w l' s' id Hh Hv Hid). reflexivity.
      - rewrite (Update_nil_Id w l' s' Hh Hv Hid). reflexivity. }
    rewrite Hheap. destruct (decide (l' = l)) as [-> | Hne].
    + right. assert (s' = s) as -> by congruence.
      split; [reflexivity | split; [exact Hv |]].
      apply list_lookup_insert_eq. eapply lookup_lt_Some; exact Hl.
    + left. rewrite list_lookup_insert_ne by exact Hne. exact Hl.
  - left. rewrite Update_nil. destruct (validate_nil w) as [[e|]|msg]; exact Hl.
  - destruct version as [|a version]; [| left; exact Hl].
    destruct model as [|a model]; [| left; exact Hl].
    rewrite FindImageByApplicationAndModel_run. left. simpl. apply Hext.
  - destruct (heap w !! l') as [s'|] eqn:Hh;
      [| rewrite (Insert_dangling w l' Hh); left; exact Hl].
    destruct (validate s') as [e|] eqn:Hv;
      [rewrite (Insert_rejected w l' s' e Hh Hv); left; exact Hl |].
    rewrite (Insert_accepted w l' s' Hh Hv). left. exact Hl.
  - left. exact Hl.
  - destruct id as [|a id]; [| left; exact Hl].
    rewrite FindByID_run. cbv zeta.
    destruct (fst (fst (serve _ _ _ _ _))); left; simpl; [apply Hext | exact Hl].
  - destruct id as [|a id]; [| left; exact Hl].
    rewrite Delete_run. left. exact Hl.
  - rewrite FindAll_run. left. simpl. apply Hext.
Qed.

(** X6, run: a listing and an insert leave the image alone. *)
Lemma caller_images_only_stamped_witness :
  let w := world_of [img "a" "n" "m"] [img "z" "p" "q"] [] [] in
  heap (exec CallFindAll w) !! 0%nat = Some (img "a" "n" "m")
  /\ heap (exec (CallInsert (Some 0%nat)) w) !! 0%nat = Some (img "a" "n" "m").
Proof.
  intros w. split.
  - destruct (caller_images_only_stamped CallFindAll w 0%nat (img "a" "n" "m") eq_refl)
      as [H | (H & _)]; [exact H | discriminate H].
  - destruct (caller_images_only_stamped (CallInsert (Some 0%nat)) w 0%nat
                (img "a" "n" "m") eq_refl)
      as [H | (H & _)]; [exact H | discriminate H].
Defined.

(** ** Lookups and listings *)

Lemma serve_find_one (p : SoftwareImage -> bool) (s : server) :
  let r := serve DatabaseName CollectionImages None (Collection.find_one p) s in
  (fst (fst r) = None /\ exists e, snd (fst r) = Some e)
  \/ (exists d, fst (fst r) = Some d /\ snd (fst r) = None /\ no_fault_due s
                /\ List.find p (mgo.docs (coll_at DatabaseName CollectionImages s)) = Some d).
Proof.
  unfold serve, no_fault_due, Collection.find_one.
  destruct (faults s) as [|[e|] rest]; simpl; eauto;
    destruct (List.find p _) as [d|]; simpl; eauto 10.
Qed.

Lemma lookup_result_some (image : ptr) (err : option error) (l : loc) (err' : option error) :
  lookup_result image err = (Some l, err') -> image = Some l /\ err = None /\ err' = None.
Proof.
  unfold lookup_result. destruct (is_not_found err); [discriminate |].
  destruct err; [discriminate |]. intros [= -> <-]. auto.
Qed.

Lemma FindByID_found (id : string) (w : world) (l : loc) (err : option error) :
  fst (FindByID id w) = Ret (Some l, err) ->
  err = None /\ l = length (heap w)
  /\ exists d, heap (snd (FindByID id w)) !! l = Some d
               /\ List.find (mgo.has_id id) (stored w) = Some d.
Proof.
  destruct id as [|a id]; [| discriminate].
  rewrite FindByID_run. cbv zeta.
  destruct (serve_find_one (mgo.has_id "") (mongo w))
    as [(Hf & e & He) | (d & Hf & He & _ & Hfind)]; rewrite Hf, He; simpl.
  - unfold lookup_result. destruct (is_not_found (Some e)); discriminate.
  - intros [= <- <-]. repeat split. exists d. split; [| exact Hfind].
    apply list_lookup_middle. reflexivity.
Qed.

Lemma FindImageByApplicationAndModel_found (version model : string) (w : world)
    (l : loc) (err : option error) :
  fst (FindImageByApplicationAndModel version model w) = Ret (Some l, err) ->
  err = None /\ l = length (heap w)
  /\ exists d, heap (snd (FindImageByApplicationAndModel version model w)) !! l = Some d
               /\ d ∈ stored w /\ Name d = Some version /\ Model d = Some model.
Proof.
  destruct version as [|a version]; [| discriminate].
  destruct model as [|a model]; [| discriminate].
  rewrite FindImageByApplicationAndModel_run. cbv zeta.
  pose proof (serve_find_one
                (mgo.matches [(StorageKeySoftwareImageModel, "");
                              (StorageKeySoftwareImageName, "")])
                (mongo w)) as Hs.
  cbv zeta in Hs.
  destruct (serve _ _ _ _ _) as [[found e0] s']. simpl in Hs |- *.
  intros [= Hres]. apply lookup_result_some in Hres as ([= <-] & -> & ->).
  destruct Hs as [(_ & e & He) | (d & -> & _ & _ & Hfind)]; [discriminate |].
  repeat split. exists d. simpl.
  split; [apply list_lookup_middle; reflexivity |].
  apply find_some in Hfind as (Hin & Hm).
  split; [apply list_elem_of_In; exact Hin |].
  unfold mgo.matches in Hm. simpl in Hm.
  apply andb_true_iff in Hm as (Hmodel & Hm).
  apply andb_true_iff in Hm as (Hname & _).
  apply bool_decide_eq_true in Hmodel, Hname. split; assumption.
Qed.

(** X7: [Exists] is [FindByID] with the pointer turned into a boolean.  For
    every id and in every world the two leave the same world behind (the
    same command, the same decoded record on the heap), return the same
    error, and [Exists] says true exactly when [FindByID] returns a record. *)
Theorem Exists_agrees_with_FindByID (id : string) (w : world) :
  snd (Exists id w) = snd (FindByID id w)
  /\ exists (p : ptr) (err : option error),
       fst (FindByID id w) = Ret (p, err)
       /\ fst (Exists id w) = Ret (match p with Some _ => true | None => false end, err).
Proof.
  destruct id as [|a id]; [| split; [reflexivity | eexists _, _; split; reflexivity]].
  rewrite Exists_run, FindByID_run. cbv zeta.
  destruct (serve_find_one (mgo.has_id "") (mongo w))
    as [(Hf & e & He) | (d & Hf & He & _)]; rewrite Hf, He; simpl.
  - split; [reflexivity |]. unfold lookup_result, found_or_error.
    destruct (is_not_found (Some e)); eexists _, _; split; reflexivity.
  - split; [reflexivity |]. eexists _, _; split; reflexivity.
Qed.

(** X8: a record a lookup returns is a stored one that matches.  When
    [FindByID] returns a non-nil pointer, the error is nil, the pointer is a
    new cell, and the image in it is the first stored record with that
    [_id]; when [FindImageByApplicationAndModel] does, the image is a stored
    record with that name and that model. *)
Theorem lookups_return_stored_matches (w : world) (l : loc) (err : option error) :
  (forall id : string,
      fst (FindByID id w) = Ret (Some l, err) ->
      err = None /\ l = length (heap w)
      /\ exists d, heap (snd (FindByID id w)) !! l = Some d
                   /\ d ∈ stored w /\ Id d = Some id
                   /\ List.find (mgo.has_id id) (stored w) = Some d)
  /\ (forall version model : string,
        fst (FindImageByApplicationAndModel version model w) = Ret (Some l, err) ->
        err = None /\ l = length (heap w)
        /\ exists d,
             heap (snd (FindImageByApplicationAndModel version model w)) !! l = Some d
             /\ d ∈ stored w /\ Name d = Some version /\ Model d = Some model).
Proof.
  split.
  - intros id Hres. destruct (FindByID_found id w l err Hres) as (He & Hl & d & Hd & Hfind).
    split; [exact He | split; [exact Hl |]]. exists d. split; [exact Hd |].
    pose proof (find_some _ _ Hfind) as (Hin & Hp).
    split; [apply list_elem_of_In; exact Hin |].
    split; [apply has_id_true; exact Hp | exact Hfind].
  - intros version model. apply FindImageByApplicationAndModel_found.
Qed.

(** X8, run: a record stored under the empty [_id]. *)
Lemma lookups_return_stored_matches_witness :
  let d0 := mkSoftwareImage (Some "") (Some "n") (Some "m") None in
  let w := world_of [] [img "a" "p" "q"; d0] [] [] in
  fst (FindByID "" w) = Ret (Some 0%nat, None)
  /\ heap (snd (FindByID "" w)) !! 0%nat = Some d0.
Proof.
  intros d0 w.
  assert (Hres : fst (FindByID "" w) = Ret (Some 0%nat, None)) by (vm_compute; reflexivity).
  split; [exact Hres |].
  destruct (proj1 (lookups_return_stored_matches w 0%nat None) "" Hres)
    as (_ & _ & d & Hd & _ & _ & Hfind).
  etransitivity; [exact Hd |]. vm_compute in Hfind. injection Hfind as <-. reflexivity.
Defined.

(** X9: with the database answering, [FindAll] returns a nil error and one
    pointer for every stored record, in the order of the collection; the
    pointers are new consecutive cells holding copies of the records, and
    the collection is as before. *)
Theorem FindAll_lists_every_record (w : world) :
  no_fault_due (mongo w) ->
  fst (FindAll w) =
    Ret (map Some (seq (length (heap w)) (length (stored w))), None)
  /\ heap (snd (FindAll w)) = heap w ++ stored w
  /\ images (snd (FindAll w)) = images w.
Proof.
  intros Hn. rewrite FindAll_run. cbv zeta. rewrite serve_run by exact Hn.
  unfold Collection.find_all. simpl. rewrite filter_all. fold (images w). fold (stored w).
  split; [reflexivity | split; [reflexivity |]].
  apply (images_served _ (images w) (colls (mongo w))). reflexivity.
Qed.

(** X9, run: two stored records, one image of the caller's. *)
Lemma FindAll_lists_every_record_witness :
  let w := world_of [img "c" "x" "y"] [img "a" "n" "m"; img "b" "p" "q"] [] [] in
  fst (FindAll w) = Ret ([Some 1%nat; Some 2%nat], None)
  /\ heap (snd (FindAll w)) = [img "c" "x" "y"; img "a" "n" "m"; img "b" "p" "q"].
Proof.
  intros w. destruct (FindAll_lists_every_record w I) as (Hr & Hh & _).
  split; [exact Hr | exact Hh].
Defined.

Lemma is_not_found_false (e : error) :
  is_not_found (Some e) = false -> Error e <> Error mgo.ErrNotFound.
Proof. simpl. intros H. apply String.eqb_neq. exact H. Qed.

Lemma found_or_error_err (err : option error) (b : bool) (e : error) :
  found_or_error err = (b, Some e) -> Error e <> Error mgo.ErrNotFound.
Proof.
  unfold found_or_error. destruct (is_not_found err) eqn:Hnf; [discriminate |].
  destruct err as [e'|]; [| discriminate]. intros [= _ <-].
  apply is_not_found_false. exact Hnf.
Qed.

Lemma lookup_result_err (image p : ptr) (err : option error) (e : error) :
  lookup_result image err = (p, Some e) -> Error e <> Error mgo.ErrNotFound.
Proof.
  unfold lookup_result. destruct (is_not_found err) eqn:Hnf; [discriminate |].
  destruct err as [e'|]; [| discriminate]. intros [= _ <-].
  apply is_not_found_false. exact Hnf.
Qed.

(** X10: "not found" never reaches the caller as an error.  Whatever the
    database answers and whatever failure is due, an error returned by
    [Exists], [Update] (of an image that passed [Validate]),
    [FindImageByApplicationAndModel], [FindByID], [Delete] or [FindAll] does
    not have the text of [mgo.ErrNotFound]. *)
Theorem not_found_never_returned_as_error (w : world) (e : error) :
  (forall id b, fst (Exists id w) = Ret (b, Some e) -> Error e <> Error mgo.ErrNotFound)
  /\ (forall l s b, heap w !! l = Some s -> validate s = None ->
        fst (Update (Some l) w) = Ret (b, Some e) -> Error e <> Error mgo.ErrNotFound)
  /\ (forall version model p,
        fst (FindImageByApplicationAndModel version model w) = Ret (p, Some e) ->
        Error e <> Error mgo.ErrNotFound)
  /\ (forall id p, fst (FindByID id w) = Ret (p, Some e) ->
        Error e <> Error mgo.ErrNotFound)
  /\ (forall id, fst (Delete id w) = Ret (Some e) -> Error e <> Error mgo.ErrNotFound)
  /\ (forall ps, fst (FindAll w) = Ret (ps, Some e) -> Error e <> Error mgo.ErrNotFound).
Proof.
  repeat apply conj.
  - intros [|a id] b; [| intros [= _ <-]; discriminate].
    rewrite Exists_run. cbv zeta. intros [= H]. exact (found_or_error_err _ _ _ H).
  - intros l s b Hh Hv. destruct (Id s) as [id|] eqn:Hid;
      [| rewrite (Update_nil_Id w l s Hh Hv Hid); discriminate].
    rewrite (Update_accepted w l s id Hh Hv Hid). cbv zeta.
    intros [= H]. exact (found_or_error_err _ _ _ H).
  - intros [|a version] model p; [| intros [= _ <-]; discriminate].
    destruct model as [|a model]; [| intros [= _ <-]; discriminate].
    rewrite FindImageByApplicationAndModel_run. cbv zeta.
    intros [= H]. exact (lookup_result_err _ _ _ _ H).
  - intros [|a id] p; [| intros [= _ <-]; discriminate].
    rewrite FindByID_run. cbv zeta.
    destruct (fst (fst (serve _ _ _ _ _))); intros [= H];
      exact (lookup_result_err _ _ _ _ H).
  - intros [|a id]; [| intros [= <-]; discriminate].
    rewrite Delete_run. cbv zeta. simpl.
    destruct (is_not_found _) eqn:Hnf; [discriminate |].
    intros [= H]. rewrite H in Hnf. apply is_not_found_false. exact Hnf.
  - intros ps. rewrite FindAll_run. cbv zeta. simpl.
    destruct (is_not_found _) eqn:Hnf; [discriminate |].
    destruct (snd (fst (serve _ _ _ _ _))) as [e'|] eqn:He; [| discriminate].
    intros [= _ <-]. apply is_not_found_false. exact Hnf.
Qed.

(** X10, run: a dropped connection is reported, with its own text. *)
Lemma not_found_never_returned_as_error_witness :
  let reset := mkError 98 "connection reset by peer" in
  let w := world_of [] [] [] [Some reset] in
  fst (Delete "" w) = Ret (Some reset) /\ Error reset <> Error mgo.ErrNotFound.
Proof.
  intros reset w.
  assert (Hres : fst (Delete "" w) = Ret (Some reset)) by reflexivity.
  split; [exact Hres |].
  destruct (not_found_never_returned_as_error w reset) as (_ & _ & _ & _ & Hdel & _).
  exact (Hdel "" Hres).
Defined.

(** X11: the lookup by name and model cannot return a valid record.  Its
    guards let only the empty version with the empty model through, and a
    record with that natural key does not pass [Validate]; so while every
    stored record is valid, [FindImageByApplicationAndModel] returns a nil
    pointer for every version and model. *)
Theorem FindImageByApplicationAndModel_returns_no_valid_record
    (version model : string) (w : world) :
  stored_valid (images w) ->
  exists err : option error,
    fst (FindImageByApplicationAndModel version model w) = Ret (None, err).
Proof.
  intros Hvalid.
  destruct (fst (FindImageByApplicationAndModel version model w)) as [[[l|] err]|msg] eqn:Hres.
  - exfalso.
    destruct (FindImageByApplicationAndModel_found version model w l err Hres)
      as (_ & _ & d & _ & Hin & Hname & Hmodel).
    destruct version as [|a version]; [| discriminate Hres].
    unfold stored_valid in Hvalid. rewrite Forall_forall in Hvalid.
    specialize (Hvalid d Hin). unfold validate in Hvalid. rewrite Hname in Hvalid.
    discriminate Hvalid.
  - eauto.
  - exfalso. revert Hres.
    destruct version as [|a version]; [| discriminate].
    destruct model as [|a model]; [| discriminate].
    rewrite FindImageByApplicationAndModel_run. discriminate.
Qed.

(** X11, run: the stored record is asked for by its own name and model. *)
Lemma FindImageByApplicationAndModel_returns_no_valid_record_witness :
  let w := world_of [] [img "a" "n" "m"] [] [] in
  exists err : option error,
    fst (FindImageByApplicationAndModel "n" "m" w) = Ret (None, err).
Proof.
  intros w. apply (FindImageByApplicationAndModel_returns_no_valid_record "n" "m" w).
  unfold stored_valid. vm_compute. repeat constructor.
Defined.

(** ** Writes *)

Lemma existsb_false {A} (f : A -> bool) (l : list A) :
  existsb f l = false <-> forall x, x ∈ l -> f x = false.
Proof.
  split.
  - intros Hex x Hx. apply not_true_iff_false. intros Hf.
    apply not_true_iff_false in Hex. apply Hex. apply existsb_exists.
    exists x. split; [apply list_elem_of_In; exact Hx | exact Hf].
  - intros Hall. apply not_true_iff_false. intros Hex.
    apply existsb_exists in Hex as (x & Hx & Hf).
    rewrite (Hall x) in Hf by (apply list_elem_of_In; exact Hx). discriminate.
Qed.

Lemma find_index_snoc (p : SoftwareImage -> bool) (ds : list SoftwareImage)
    (x : SoftwareImage) :
  (forall d, d ∈ ds -> p d = false) -> p x = true ->
  mgo.find_index p (ds ++ [x]) = Some (length ds).
Proof.
  induction ds as [|d ds IH]; intros Hall Hx; simpl.
  - rewrite Hx. reflexivity.
  - rewrite (Hall d) by left. rewrite IH; [reflexivity | | exact Hx].
    intros d' Hd'. apply Hall. right. exact Hd'.
Qed.

(** What [Insert] of the image [s] leaves when the database answers. *)
Lemma Insert_served (w : world) (l : loc) (s : SoftwareImage) :
  heap w !! l = Some s -> validate s = None -> no_fault_due (mongo w) ->
  fst (Insert (Some l) w) = Ret (snd (fst (Collection.insert s (images w))))
  /\ images (snd (Insert (Some l) w)) = snd (Collection.insert s (images w))
  /\ heap (snd (Insert (Some l) w)) = heap w
  /\ faults (mongo (snd (Insert (Some l) w))) = tl (faults (mongo w)).
Proof.
  intros Hh Hv Hn. rewrite (Insert_accepted w l s Hh Hv). cbv zeta.
  rewrite serve_run by exact Hn. simpl. fold (images w).
  repeat split. apply (images_served _ _ (colls (mongo w))). reflexivity.
Qed.

Lemma Insert_nil_served (w : world) (l : loc) (s : SoftwareImage) :
  heap w !! l = Some s -> fst (Insert (Some l) w) = Ret None ->
  validate s = None /\ no_fault_due (mongo w).
Proof.
  intros Hh. destruct (validate s) as [e|] eqn:Hv;
    [rewrite (Insert_rejected w l s e Hh Hv); discriminate |].
  rewrite (Insert_accepted w l s Hh Hv). cbv zeta. unfold serve, no_fault_due.
  destruct (faults (mongo w)) as [|[e|] rest]; simpl; [auto | discriminate | auto].
Qed.

Lemma insert_outcome (s : SoftwareImage) (c : mgo.collection) :
  (snd (fst (Collection.insert s c)) = None
   /\ snd (Collection.insert s c) =
        mgo.mkCollection (mgo.docs c ++ [bson.written s]) (mgo.indexes c)
   /\ existsb (fun o => bool_decide (Id o = Id s)) (mgo.docs c) = false
   /\ mgo.violates_unique (mgo.indexes c) (mgo.docs c) s = false)
  \/ (snd (fst (Collection.insert s c)) = Some mgo.ErrDuplicateKey
      /\ snd (Collection.insert s c) = c
      /\ (existsb (fun o => bool_decide (Id o = Id s)) (mgo.docs c) = true
          \/ mgo.violates_unique (mgo.indexes c) (mgo.docs c) s = true)).
Proof.
  unfold Collection.insert.
  destruct (existsb _ _) eqn:Hid; [right; auto |].
  destruct (mgo.violates_unique _ _ _) eqn:Hvu; [right; auto |].
  left. auto.
Qed.

(** X12: with the database answering, [Insert] returns nil exactly when the
    image passes [Validate], no stored record has its [_id], and it clashes
    with no stored record under a unique index; then the record, as BSON
    keeps it (a modification time rounded down to the millisecond), is added
    at the end of the collection, and otherwise the collection is as before.
    The caller's image is not changed either way. *)
Theorem Insert_persists_exactly_when_accepted (w : world) (l : loc) (s : SoftwareImage) :
  heap w !! l = Some s -> no_fault_due (mongo w) ->
  (fst (Insert (Some l) w) = Ret None <->
     validate s = None
     /\ (forall d, d ∈ stored w -> Id d <> Id s)
     /\ (forall ix d, ix ∈ mgo.indexes (images w) -> mgo.Unique ix = true ->
                      d ∈ stored w -> mgo.index_key ix d <> mgo.index_key ix s))
  /\ (fst (Insert (Some l) w) = Ret None ->
      stored (snd (Insert (Some l) w)) = stored w ++ [bson.written s])
  /\ (fst (Insert (Some l) w) <> Ret None ->
      stored (snd (Insert (Some l) w)) = stored w)
  /\ heap (snd (Insert (Some l) w)) = heap w.
Proof.
  intros Hh Hn. destruct (validate s) as [e|] eqn:Hv.
  { rewrite (Insert_rejected w l s e Hh Hv). simpl.
    repeat split; try discriminate. intros (Hcontra & _). discriminate. }
  destruct (Insert_served w l s Hh Hv Hn) as (Hr & Hi & Hheap & _).
  assert (Hst : stored (snd (Insert (Some l) w)) =
                mgo.docs (snd (Collection.insert s (images w))))
    by (unfold stored; rewrite Hi; reflexivity).
  rewrite Hr, Hst, Hheap. clear Hr Hst Hi Hheap.
  destruct (insert_outcome s (images w)) as [(He & Hc & Hid & Hvu) | (He & Hc & Hwhy)];
    rewrite He, Hc; simpl; fold (stored w).
  - repeat split; try congruence.
    + intros d Hd Heq.
      pose proof (proj1 (existsb_false _ _) Hid d Hd) as Hf.
      apply bool_decide_eq_false in Hf. contradiction.
    + intros ix d Hix Hu Hd. exact (proj1 (violates_unique_false _ _ _) Hvu ix d Hix Hu Hd).
  - repeat split; try discriminate.
    intros (_ & Hids & Hkeys). exfalso. destruct Hwhy as [Hid | Hvu].
    + apply existsb_exists in Hid as (o & Ho & Heq). apply bool_decide_eq_true in Heq.
      apply (Hids o); [apply list_elem_of_In; exact Ho | exact Heq].
    + apply not_false_iff_true in Hvu. apply Hvu. apply violates_unique_false.
      intros ix o Hix Hu Ho. exact (Hkeys ix o Hix Hu Ho).
Qed.

(** X12, run: a new record is added; a second one with the same name and
    model is refused once the index is there. *)
Lemma Insert_persists_exactly_when_accepted_witness :
  let w := world_of [img "b" "p" "q"; img "c" "n" "m"] [img "a" "n" "m"]
             [uniqueNameVersionIndex] [] in
  stored (snd (Insert (Some 0%nat) w)) = [img "a" "n" "m"; img "b" "p" "q"]
  /\ stored (snd (Insert (Some 1%nat) w)) = [img "a" "n" "m"].
Proof.
  intros w. split.
  - destruct (Insert_persists_exactly_when_accepted w 0%nat (img "b" "p" "q") eq_refl I)
      as (_ & Hadd & _).
    etransitivity; [apply Hadd; vm_compute; reflexivity | vm_compute; reflexivity].
  - destruct (Insert_persists_exactly_when_accepted w 1%nat (img "c" "n" "m") eq_refl I)
      as (_ & _ & Hkeep & _).
    etransitivity; [apply Hkeep; vm_compute; discriminate | vm_compute; reflexivity].
Defined.

(** X13: an image that was inserted can be updated.  After an [Insert]
    that returned nil, an [Update] of the same image (its [Id] set, the
    database answering) returns [(true, nil)], and the collection then ends
    with the image carrying the new modification time as BSON keeps it,
    rounded down to the millisecond. *)
Theorem inserted_image_can_be_updated (w : world) (l : loc) (s : SoftwareImage)
    (id : string) :
  heap w !! l = Some s -> Id s = Some id ->
  fst (Insert (Some l) w) = Ret None ->
  no_fault_due (mongo (snd (Insert (Some l) w))) ->
  fst (Update (Some l) (snd (Insert (Some l) w))) = Ret (true, None)
  /\ stored (snd (Update (Some l) (snd (Insert (Some l) w)))) =
       stored w ++ [bson.written (set_modified (stamped (snd (Insert (Some l) w))) s)].
Proof.
  intros Hh Hid Hnil Hn1.
  destruct (Insert_nil_served w l s Hh Hnil) as (Hv & Hn).
  destruct (Insert_served w l s Hh Hv Hn) as (Hr & Hi & Hheap & _).
  rewrite Hr in Hnil.
  destruct (insert_outcome s (images w)) as [(He & Hc & Hids & Hvu) | (He & _)];
    [| congruence].
  rewrite Hc in Hi. clear Hr He Hc Hnil.
  set (w1 := snd (Insert (Some l) w)) in *.
  assert (Hh1 : heap w1 !! l = Some s) by (rewrite Hheap; exact Hh).
  assert (Hfst : fst (Update (Some l) w1) =
                 Ret (found_or_error
                        (snd (fst (Collection.update_id id (set_modified (stamped w1) s)
                                     (images w1))))))
    by (rewrite (Update_served w1 l s id Hh1 Hv Hid Hn1); reflexivity).
  assert (Hsnd : stored (snd (Update (Some l) w1)) =
                 mgo.docs (snd (Collection.update_id id (set_modified (stamped w1) s)
                                  (images w1))))
    by (rewrite (Update_served w1 l s id Hh1 Hv Hid Hn1); apply stored_after_update).
  rewrite Hfst, Hsnd, Hi. clear Hfst Hsnd.
  unfold Collection.update_id. simpl. fold (stored w).
  rewrite (find_index_snoc (mgo.has_id id) (stored w) (bson.written s)).
  - rewrite (delete_middle (stored w) [] (bson.written s)), app_nil_r.
    rewrite violates_unique_set_modified. fold (stored w) in Hvu. rewrite Hvu. simpl.
    split; [reflexivity |].
    rewrite insert_app_r_alt by lia. rewrite Nat.sub_diag. reflexivity.
  - intros d Hd. rewrite has_id_spec. apply bool_decide_eq_false_2.
    pose proof (proj1 (existsb_false _ _) Hids d Hd) as Hf.
    apply bool_decide_eq_false in Hf. congruence.
  - apply has_id_true. exact Hid.
Qed.

(** X13, run: insert, then update at 2.5 ms on the clock. *)
Lemma inserted_image_can_be_updated_witness :
  let w := world_at 2500000 [img "b" "p" "q"] [img "a" "n" "m"]
             [uniqueNameVersionIndex] [] in
  fst (Update (Some 0%nat) (snd (Insert (Some 0%nat) w))) = Ret (true, None)
  /\ stored (snd (Update (Some 0%nat) (snd (Insert (Some 0%nat) w)))) =
       [img "a" "n" "m"; mkSoftwareImage (Some "b") (Some "p") (Some "q") (Some 2000000)].
Proof.
  intros w.
  destruct (inserted_image_can_be_updated w 0%nat (img "b" "p" "q") "b" eq_refl eq_refl)
    as (Hr & Hs); [vm_compute; reflexivity | vm_compute; exact I |].
  split; [exact Hr |]. etransitivity; [exact Hs |]. vm_compute. reflexivity.
Defined.

Lemma delete_leaves_other_ids (ds : list SoftwareImage) (i : nat) (o : SoftwareImage) :
  NoDup (Id <$> ds) -> ds !! i = Some o ->
  forall d, d ∈ delete i ds -> Id d <> Id o.
Proof.
  intros Hnd Ho d Hd Heq.
  rewrite (delete_Permutation ds i o Ho) in Hnd.
  rewrite fmap_cons in Hnd. apply NoDup_cons in Hnd as (Hfresh & _).
  apply Hfresh. rewrite <- Heq. apply list_elem_of_fmap. exists d. auto.
Qed.

(** X14: [Delete] removes at most one record and no index; the record it
    removes is the first stored one with the given [_id] - it has that
    [_id] and no record before it has - and then [Delete] returns nil; and
    when it returns nil with the database answering and the [_id]s unique,
    no stored record has that [_id] afterwards. *)
Theorem Delete_removes_the_record (id : string) (w : world) :
  mgo.indexes (images (snd (Delete id w))) = mgo.indexes (images w)
  /\ (stored (snd (Delete id w)) = stored w
      \/ exists i d, mgo.find_index (mgo.has_id id) (stored w) = Some i
                     /\ stored w !! i = Some d /\ Id d = Some id
                     /\ (forall j d', (j < i)%nat -> stored w !! j = Some d' ->
                                      Id d' <> Some id)
                     /\ stored (snd (Delete id w)) = delete i (stored w)
                     /\ fst (Delete id w) = Ret None)
  /\ (no_fault_due (mongo w) -> fst (Delete id w) = Ret None ->
      primary_keys_unique (images w) ->
      forall d, d ∈ stored (snd (Delete id w)) -> Id d <> Some id).
Proof.
  destruct id as [|a id];
    [| split; [reflexivity | split; [left; reflexivity | discriminate]]].
  rewrite Delete_run. cbv zeta.
  destruct (faults (mongo w)) as [|[e|] rest] eqn:Hf.
  2:{ rewrite (serve_fault _ _ _ _ _ _ _ Hf). simpl.
      split; [reflexivity | split; [left; reflexivity |]].
      unfold no_fault_due. rewrite Hf. tauto. }
  all: rewrite serve_run by (unfold no_fault_due; rewrite Hf; exact I);
    unfold stored, images, after_command, log, set_mongo, coll_at; simpl;
    rewrite lookup_insert_eq; simpl;
    fold (coll_at DatabaseName CollectionImages (mongo w)); fold (images w);
    unfold Collection.remove_id; fold (stored w);
    destruct (mgo.find_index (mgo.has_id "") (stored w)) as [i|] eqn:Hi; simpl;
    (split; [reflexivity |]).
  1,3: pose proof (find_index_first _ _ _ Hi) as Hfirst;
    pose proof (find_index_lookup _ _ _ Hi) as (o & Ho & Hp); apply has_id_true in Hp;
    (split;
     [right; exists i, o; repeat split; try assumption;
      intros j d' Hj Hd' Hid'; apply has_id_true in Hid';
      rewrite (Hfirst j d' Hj Hd') in Hid'; discriminate Hid' |]);
    intros _ _ Hnd d Hd; rewrite <- Hp;
    exact (delete_leaves_other_ids (stored w) i o Hnd Ho d Hd).
  all: split; [left; reflexivity |];
    intros _ _ _ d Hd Hid; apply has_id_true in Hid;
    rewrite (find_index_absent _ _ Hi d Hd) in Hid; discriminate Hid.
Qed.

(** X14, run: the record with the empty [_id] is deleted, the other stays. *)
Lemma Delete_removes_the_record_witness :
  let d0 := mkSoftwareImage (Some "") (Some "n") (Some "m") None in
  let w := world_of [] [img "a" "p" "q"; d0] [] [] in
  stored (snd (Delete "" w)) = [img "a" "p" "q"]
  /\ forall d, d ∈ stored (snd (Delete "" w)) -> Id d <> Some "".
Proof.
  intros d0 w. split; [vm_compute; reflexivity |].
  destruct (Delete_removes_the_record "" w) as (_ & _ & Hgone).
  apply Hgone; [exact I | reflexivity |].
  unfold primary_keys_unique. vm_compute.
  apply NoDup_cons. split; [| apply NoDup_singleton].
  intros Hin. apply list_elem_of_singleton in Hin. discriminate Hin.
Defined.

Lemma update_id_ids (id : string) (d : SoftwareImage) (c : mgo.collection) :
  Id d = Some id ->
  Id <$> mgo.docs (snd (Collection.update_id id d c)) = Id <$> mgo.docs c
  /\ mgo.indexes (snd (Collection.update_id id d c)) = mgo.indexes c.
Proof.
  intros Hid. unfold Collection.update_id.
  destruct (mgo.find_index _ _) as [i|] eqn:Hi; [| split; reflexivity].
  destruct (mgo.violates_unique _ _ _); [split; reflexivity |].
  simpl. split; [| reflexivity].
  rewrite list_fmap_insert.
  apply find_index_lookup in Hi as (o & Ho & Hp). apply has_id_true in Hp.
  apply list_insert_id. rewrite list_lookup_fmap, Ho. simpl. congruence.
Qed.

(** X15: [Update] never changes who is stored.  Whatever image it is given
    and whatever the database answers, the stored records have the same
    [_id]s, in the same order, after the call as before, and the indexes
    are the same: an update replaces a record under its own identifier and
    neither adds nor removes one. *)
Theorem Update_keeps_identifiers (image : ptr) (w : world) :
  Id <$> stored (snd (Update image w)) = Id <$> stored w
  /\ mgo.indexes (images (snd (Update image w))) = mgo.indexes (images w)
  /\ length (stored (snd (Update image w))) = length (stored w).
Proof.
  assert (Hmain : Id <$> stored (snd (Update image w)) = Id <$> stored w
                  /\ mgo.indexes (images (snd (Update image w))) = mgo.indexes (images w)).
  { pose proof (exec_effect (CallUpdate image) w) as Heff. cbn [exec] in Heff.
    unfold stored.
    remember (images (snd (Update image w))) as c' eqn:Hc'.
    remember (CallUpdate image) as c eqn:Hc.
    destruct Heff as [c | | l s | l s id Hh Hv Hid | id]; try discriminate Hc.
    - split; reflexivity.
    - apply update_id_ids. exact Hid. }
  destruct Hmain as (Hids & Hix). split; [exact Hids | split; [exact Hix |]].
  apply (f_equal length) in Hids. rewrite !length_fmap in Hids. exact Hids.
Qed.

Lemma effect_of_read (w : world) (c : call) (c' : mgo.collection) :
  coll_effect w c c' ->
  match c with
  | CallExists _ | CallFindByID _ | CallFindImageByApplicationAndModel _ _
  | CallFindAll => c' = images w
  | CallIndexStorage => mgo.docs c' = mgo.docs (images w)
  | _ => True
  end.
Proof.
  intros Heff. destruct Heff as [c | | l s Hh Hv | l s id Hh Hv Hid | id]; try exact I.
  - destruct c; try exact I; reflexivity.
  - apply ensure_index_docs.
Qed.

(** X16: reading does not write.  [Exists], [FindByID],
    [FindImageByApplicationAndModel] and [FindAll] leave the images
    collection - records and indexes - exactly as it was, for every input
    and whatever the database answers; [IndexStorage] leaves every record
    as it was. *)
Theorem reads_leave_the_collection (w : world) :
  (forall id, images (snd (Exists id w)) = images w)
  /\ (forall id, images (snd (FindByID id w)) = images w)
  /\ (forall version model,
        images (snd (FindImageByApplicationAndModel version model w)) = images w)
  /\ images (snd (FindAll w)) = images w
  /\ stored (snd (IndexStorage w)) = stored w.
Proof.
  repeat apply conj.
  - intros id. exact (effect_of_read w _ _ (exec_effect (CallExists id) w)).
  - intros id. exact (effect_of_read w _ _ (exec_effect (CallFindByID id) w)).
  - intros version model.
    exact (effect_of_read w _ _
             (exec_effect (CallFindImageByApplicationAndModel version model) w)).
  - exact (effect_of_read w _ _ (exec_effect CallFindAll w)).
  - exact (effect_of_read w _ _ (exec_effect CallIndexStorage w)).
Qed.

(** X17: what was inserted is listed.  After an [Insert] that returned nil,
    [FindAll] (the database answering) lists the records that were stored
    before, in their order, followed by the inserted image as BSON keeps
    it: the same but for a modification time rounded down to the
    millisecond. *)
Theorem inserted_image_is_listed (w : world) (l : loc) (s : SoftwareImage) :
  heap w !! l = Some s ->
  fst (Insert (Some l) w) = Ret None ->
  no_fault_due (mongo (snd (Insert (Some l) w))) ->
  FindAll_images (snd (Insert (Some l) w)) =
    Ret (map Some (stored w) ++ [Some (bson.written s)], None).
Proof.
  intros Hh Hnil Hn1.
  destruct (Insert_nil_served w l s Hh Hnil) as (Hv & Hn).
  destruct (Insert_served w l s Hh Hv Hn) as (Hr & Hi & _).
  rewrite Hr in Hnil.
  destruct (insert_outcome s (images w)) as [(_ & Hc & _) | (He & _)]; [| congruence].
  rewrite Hc in Hi. clear Hr Hnil Hc.
  remember (snd (Insert (Some l) w)) as w1 eqn:Hw1. clear Hw1.
  rewrite FindAll_images_spec. unfold listing.
  fold (images w1). rewrite Hi. simpl.
  unfold no_fault_due in Hn1.
  destruct (faults (mongo w1)) as [|[e|] rest];
    [| contradiction |]; fold (stored w); rewrite map_app; reflexivity.
Qed.

(** X17, run: one stored record, and one inserted that an earlier [Update]
    had stamped with 1.5 ms. *)
Lemma inserted_image_is_listed_witness :
  let b := mkSoftwareImage (Some "b") (Some "p") (Some "q") (Some 1500000) in
  let w := world_of [b] [img "a" "n" "m"] [uniqueNameVersionIndex] [] in
  FindAll_images (snd (Insert (Some 0%nat) w)) =
    Ret ([Some (img "a" "n" "m");
          Some (mkSoftwareImage (Some "b") (Some "p") (Some "q") (Some 1000000))], None).
Proof.
  intros b w.
  etransitivity;
    [apply (inserted_image_is_listed w 0%nat b eq_refl);
       [vm_compute; reflexivity | vm_compute; exact I]
    | vm_compute; reflexivity].
Defined.

(** ** The driver's memory of the index *)

Lemma exec_keeps_cache (c : call) (w : world) :
  c <> CallIndexStorage -> index_cache (exec c w) = index_cache w.
Proof.
  intros Hc.
  destruct c as [|id|[l|]|version model|[l|]|id|id|]; cbn [exec]; try congruence.
  - destruct id as [|a id]; [| reflexivity].
    rewrite Exists_run. cbv zeta.
    destruct (fst (fst (serve _ _ _ _ _))); reflexivity.
  - destruct (heap w !! l) as [s|] eqn:Hh;
      [| rewrite (Update_dangling w l Hh); reflexivity].
    destruct (validate s) as [e|] eqn:Hv;
      [rewrite (Update_rejected w l s e Hh Hv); reflexivity |].
    destruct (Id s) as [id|] eqn:Hid;
      [| rewrite (Update_nil_Id w l s Hh Hv Hid); reflexivity].
    rewrite (Update_accepted w l s id Hh Hv Hid). reflexivity.
  - rewrite Update_nil. destruct (validate_nil w) as [[e|]|msg]; reflexivity.
  - destruct version as [|a version]; [| reflexivity].
    destruct model as [|a model]; [| reflexivity].
    rewrite FindImageByApplicationAndModel_run. reflexivity.
  - destruct (heap w !! l) as [s|] eqn:Hh;
      [| rewrite (Insert_dangling w l Hh); reflexivity].
    destruct (validate s) as [e|] eqn:Hv;
      [rewrite (Insert_rejected w l s e Hh Hv); reflexivity |].
    rewrite (Insert_accepted w l s Hh Hv). reflexivity.
  - reflexivity.
  - destruct id as [|a id]; [| reflexivity].
    rewrite FindByID_run. cbv zeta.
    destruct (fst (fst (serve _ _ _ _ _))); reflexivity.
  - destruct id as [|a id]; [| reflexivity].
    rewrite Delete_run. reflexivity.
  - rewrite FindAll_run. reflexivity.
Qed.

Lemma IndexStorage_error_not_remembered (w : world) (e : error) :
  index_cached w = false -> fst (IndexStorage w) = Ret (Some e) ->
  index_cached (snd (IndexStorage w)) = false.
Proof.
  intros Hc. rewrite (IndexStorage_cold w Hc). cbv zeta.
  destruct (serve _ _ _ _ _) as [[[] err] s']. simpl.
  intros [= ->]. exact Hc.
Qed.

Lemma exec_cache_sound (c : call) (w : world) :
  cache_sound w -> cache_sound (exec c w).
Proof.
  intros Hsound.
  assert (Hcase : c = CallIndexStorage \/ c <> CallIndexStorage)
    by (destruct c; first [left; reflexivity | right; discriminate]).
  destruct Hcase as [-> | Hne].
  - cbn [exec]. destruct (index_cached w) eqn:Hc.
    + rewrite (IndexStorage_cached w Hc). intros _. exact (Hsound Hc).
    + intros Hc'. destruct (fst (IndexStorage w)) as [[e|]|msg] eqn:Hres.
      * rewrite (IndexStorage_error_not_remembered w e Hc Hres) in Hc'. discriminate Hc'.
      * exact (proj1 (IndexStorage_cold_nil w Hc Hres)).
      * rewrite (IndexStorage_cold w Hc) in Hres. discriminate Hres.
  - unfold cache_sound, index_cached. rewrite (exec_keeps_cache c w Hne).
    intros Hc. exact (effect_indexes w c _ _ (Hsound Hc) (exec_effect c w)).
Qed.

(** X18: the driver's memory of the index stays true.  [EnsureIndex] asks
    the server only for an index it does not remember, and [IndexStorage]
    relies on that; in any sequence of calls and other actions, from a
    process that remembers the engine's index only if it is there (a new
    process, say), whenever the index is remembered it is an index of the
    collection - so the nil that [IndexStorage] returns without asking is
    never wrong. *)
Theorem index_cache_stays_sound (w : world) (acts : list action) :
  cache_sound w -> cache_sound (run acts w).
Proof.
  revert w. induction acts as [|a acts IH]; intros w Hsound; [exact Hsound |].
  simpl. apply IH. destruct a as [c | h | fs]; simpl.
  - apply exec_cache_sound. exact Hsound.
  - exact Hsound.
  - exact Hsound.
Qed.

(** X18, run: a first provisioning fails, the second succeeds, records are
    written, and the third is answered from memory. *)
Lemma index_cache_stays_sound_witness :
  let down := mkError 97 "no reachable servers" in
  let w := world_of [img "a" "n" "m"] [] [] [Some down] in
  let acts := [Engine CallIndexStorage; Engine CallIndexStorage;
               Engine (CallInsert (Some 0%nat)); Engine (CallDelete "");
               Engine CallIndexStorage] in
  index_cached (run acts w) = true
  /\ uniqueNameVersionIndex ∈ mgo.indexes (images (run acts w)).
Proof.
  intros down w acts.
  assert (Hc : index_cached (run acts w) = true) by (vm_compute; reflexivity).
  split; [exact Hc |].
  apply (index_cache_stays_sound w acts); [| exact Hc].
  intros Hcold. discriminate Hcold.
Defined.
